(** * GPU training-op functors of [training_ops_gpu.cu.cc]

    A shallow embedding of the optimizer update functors
    ([functor::ApplyGradientDescent] ... [functor::ApplyPowerSign]), of the
    ROCm kernels ([ApplyAdagradKernel] ...) and of the hand-written complex
    [impl_sqrt] / [impl_rsqrt], together with the properties the
    specification states about them.

    The element type [T] of the C++ templates is a type class; it is
    instantiated with the real numbers (exact arithmetic, the literals
    exact or as the machine stores them) and with binary64 floats (the
    code as it runs for [T = double]); [std::complex<T>] is a pair. *)

From Stdlib Require Import ZArith QArith Qabs Qround Floats.
From Stdlib Require Import Reals Lra.
From stdpp Require Import base list gmap strings.

(** ** Element types *)

(** The operations the templates use on an element type [T]:
    [T(1.0)], [+ - * /] and the native [sqrt] / [rsqrt]. *)
Class Scalar (T : Type) := {
  sc_zero : T;
  sc_one : T;
  sc_add : T → T → T;
  sc_sub : T → T → T;
  sc_mul : T → T → T;
  sc_div : T → T → T;
  sc_sqrt : T → T;
  sc_rsqrt : T → T;
}.

(** What the real element types (half, float, double) have in addition:
    decimal literals, comparisons, [cwiseMax], [abs], [sign]. A literal in
    an expression is a [double] ([rs_lit]); [const T c = 0.5;] converts
    that [double] to [T] ([rs_const]). *)
Class RealScalar (T : Type) `{Scalar T} := {
  rs_lit : Q → T;
  rs_const : Q → T;
  rs_geb : T → T → bool;
  rs_ltb : T → T → bool;
  rs_gtb : T → T → bool;
  rs_max : T → T → T;
  rs_abs : T → T;
  rs_sign : T → T;
}.

(** [exp], for the element types that have it. *)
Class Exp (T : Type) := { sc_exp : T → T }.

Declare Scope sc_scope.
Delimit Scope sc_scope with S.
Infix "+" := sc_add : sc_scope.
Infix "-" := sc_sub : sc_scope.
Infix "*" := sc_mul : sc_scope.
Infix "/" := sc_div : sc_scope.

#[global] Instance Scalar_inhabited `{Scalar T} : Inhabited T := populate sc_zero.

(** *** Exact arithmetic: the real numbers *)

Definition Rgeb (a b : R) : bool := if Rle_dec b a then true else false.
Definition Rltb (a b : R) : bool := if Rlt_dec a b then true else false.
Definition Rgtb (a b : R) : bool := if Rlt_dec b a then true else false.

(** Eigen's [sign]: [(0 < x) - (x < 0)]. *)
Definition Rsign (x : R) : R :=
  ((if Rlt_dec 0 x then 1 else 0) - (if Rlt_dec x 0 then 1 else 0))%R.

#[global] Instance R_Scalar : Scalar R := {
  sc_zero := 0%R;
  sc_one := 1%R;
  sc_add := Rplus;
  sc_sub := Rminus;
  sc_mul := Rmult;
  sc_div := Rdiv;
  sc_sqrt := R_sqrt.sqrt;
  sc_rsqrt := fun x => (/ R_sqrt.sqrt x)%R;
}.

#[global] Instance R_RealScalar : RealScalar R := {
  rs_lit := Q2R;
  rs_const := Q2R;
  rs_geb := Rgeb;
  rs_ltb := Rltb;
  rs_gtb := Rgtb;
  rs_max := Rmax;
  rs_abs := Rabs;
  rs_sign := Rsign;
}.

#[global] Instance R_Exp : Exp R := { sc_exp := exp }.

(** *** binary64: [T = double] as it runs *)

Definition float_of_Z (z : Z) : float :=
  match z with
  | Z0 => 0%float
  | Zpos _ => PrimFloat.of_uint63 (Uint63.of_Z z)
  | Zneg p => PrimFloat.opp (PrimFloat.of_uint63 (Uint63.of_Z (Zpos p)))
  end.

(** A decimal literal [n/d] is read as the binary64 value nearest to it; for
    numerator and denominator that are binary64 values themselves the
    correctly rounded division delivers exactly that. *)
Definition float_lit (q : Q) : float :=
  PrimFloat.div (float_of_Z (Qnum q)) (float_of_Z (Zpos (Qden q))).

Definition float_max (a b : float) : float :=
  if PrimFloat.ltb a b then b else a.

Definition float_sign (x : float) : float :=
  PrimFloat.sub (if PrimFloat.ltb 0 x then 1 else 0)
                (if PrimFloat.ltb x 0 then 1 else 0).

#[global] Instance float_Scalar : Scalar float := {
  sc_zero := 0%float;
  sc_one := 1%float;
  sc_add := PrimFloat.add;
  sc_sub := PrimFloat.sub;
  sc_mul := PrimFloat.mul;
  sc_div := PrimFloat.div;
  sc_sqrt := PrimFloat.sqrt;
  sc_rsqrt := fun x => PrimFloat.div 1 (PrimFloat.sqrt x);
}.

#[global] Instance float_RealScalar : RealScalar float := {
  rs_lit := float_lit;
  rs_const := float_lit;
  rs_geb := fun a b => PrimFloat.leb b a;
  rs_ltb := PrimFloat.ltb;
  rs_gtb := fun a b => PrimFloat.ltb b a;
  rs_max := float_max;
  rs_abs := PrimFloat.abs;
  rs_sign := float_sign;
}.

(** *** Exact arithmetic with the literals as the machine holds them *)

(** The real element types of the complex instantiations: [float] for
    complex64, [double] for complex128. *)
Inductive precision := single | double.

(** Significant bits of a precision. *)
Definition bits (p : precision) : Z :=
  match p with
  | single => 24
  | double => 53
  end.

(** [std::is_same<T,float>::value] *)
Definition is_float (p : precision) : bool :=
  match p with
  | single => true
  | double => false
  end.

(** The value with [p] significant bits nearest to [q], ties to even (the
    exponent range is left out: the literals of this file are far from
    it). *)
Definition round_to (p : Z) (q : Q) : Q :=
  match Qnum q with
  | Z0 => 0
  | _ =>
      let a := Qabs q in
      let e0 := (Z.log2 (Qnum a) - Z.log2 (Zpos (Qden a)))%Z in
      let e := if Qle_bool (2 ^ e0) a then e0 else (e0 - 1)%Z in
      let m := a * 2 ^ (p - 1 - e) in
      let n := Qfloor m in
      let n' :=
        match m - inject_Z n ?= 1 # 2 with
        | Lt => n
        | Gt => (n + 1)%Z
        | Eq => if Z.even n then n else (n + 1)%Z
        end in
      Qred ((if Qle_bool 0 q then 1 else -1) * inject_Z n' * 2 ^ (e - (p - 1)))
  end%Q.

(** A decimal literal is a [double]. *)
Definition double_lit (q : Q) : Q := round_to 53 q.

(** [const T c = q;]: the [double] rounded to [T]. *)
Definition const_lit (p : precision) (q : Q) : Q := round_to (bits p) (double_lit q).

(** The reals with exact operations, and the literals as stored. *)
Definition R_stored (p : precision) : RealScalar R := {|
  rs_lit := fun q => Q2R (double_lit q);
  rs_const := fun q => Q2R (const_lit p q);
  rs_geb := Rgeb;
  rs_ltb := Rltb;
  rs_gtb := Rgtb;
  rs_max := Rmax;
  rs_abs := Rabs;
  rs_sign := Rsign;
|}.

(** The unit roundoff [2^-24] resp. [2^-53]. *)
Definition unit_roundoff (p : precision) : R :=
  match p with
  | single => (/ 2 ^ 24)%R
  | double => (/ 2 ^ 53)%R
  end.

(** ** The hand-written square roots (ROCm only) *)

(** [std::complex<T>]: a pair of [T]. *)
Record complex (T : Type) := Complex { real : T; imag : T }.
Arguments Complex {T} _ _.
Arguments real {T} _.
Arguments imag {T} _.

Section impl.
Context {T : Type} `{RealScalar T}.
Local Open Scope sc_scope.

(** [const T root2 = 0.7071067811865475;] *)
Definition root2 : T := rs_const 0.7071067811865475.

(** [impl_sqrt(std::complex<T> x)] *)
Definition impl_sqrt_complex (x : complex T) : complex T :=
  let re := real x in
  let im := imag x in
  let mod_x := sc_sqrt (re * re + im * im) in
  Complex (sc_sqrt (mod_x + re) * root2)
          (sc_sqrt (mod_x - re) * root2 *
           (if rs_geb im sc_zero then rs_lit 1 else rs_lit (-1))).

(** [rsqrt_helper(T x)] *)
Definition rsqrt_helper (x : T) : T :=
  rs_lit 0.5 * x + rs_lit 0.125 * x * x + rs_lit 0.0625 * x * x * x.

(** [impl_rsqrt(std::complex<T> x)]; [is_float] is
    [std::is_same<T,float>::value]. *)
Definition impl_rsqrt_complex (is_float : bool) (x : complex T) : complex T :=
  let re := real x in
  let im := imag x in
  let r := sc_rsqrt (re * re + im * im) in
  let ar2 := re * r * r in
  Complex
    (sc_sqrt (r * (if is_float && rs_ltb (re * r) (rs_lit (-0.98))
                   then rsqrt_helper (im * im * r * r)
                   else sc_one + re * r)) * root2)
    (sc_sqrt (r * (if is_float && rs_gtb (re * r) (rs_lit 0.98)
                   then rsqrt_helper (im * im * r * r)
                   else sc_one - re * r)) * root2 *
     (if rs_geb im sc_zero then rs_lit (-1) else rs_lit 1)).

End impl.

(** The scalar [impl_sqrt] / [impl_rsqrt] templates and their
    specialisations, selected by the element type. *)
Class Impl (T : Type) := {
  impl_sqrt : T → T;
  impl_rsqrt : T → T;
}.

(** [template <typename T> T impl_sqrt(T x) { return sqrt(x); }] *)
Definition Generic_Impl {T : Type} `{Scalar T} : Impl T := {|
  impl_sqrt := sc_sqrt;
  impl_rsqrt := sc_rsqrt;
|}.

(** The real element types take the generic template. *)
#[global] Instance R_Impl : Impl R := Generic_Impl.
#[global] Instance float_Impl : Impl float := Generic_Impl.

(** The [Eigen::half] specialisation: widen, call the float primitive,
    narrow. [H] is the half type, [F] is float. *)
Definition Half_Impl {H F : Type} `{Scalar F}
    (half2float : H → F) (float2half : F → H) : Impl H := {|
  impl_sqrt := fun x => float2half (sc_sqrt (half2float x));
  impl_rsqrt := fun x => float2half (sc_rsqrt (half2float x));
|}.

(** The [std::complex<T>] overloads. *)
Definition Complex_Impl {T : Type} `{RealScalar T} (is_float : bool)
    : Impl (complex T) := {|
  impl_sqrt := impl_sqrt_complex;
  impl_rsqrt := impl_rsqrt_complex is_float;
|}.

(** ** Device memory *)

(** The buffers a functor is handed, by parameter name. A buffer is the
    memory readable from its data pointer onwards: for a [Flat] its
    elements, for a [ConstScalar] its one element first. *)
Abbreviation Mem T := (gmap string (list T)).

(** How a call ends: it returns, it aborts the process (a failed [CHECK]),
    or it has read outside a buffer. *)
Inductive outcome (M : Type) :=
  | Done (m : M)
  | Fatal
  | Undefined.
Arguments Done {M} _.
Arguments Fatal {M}.
Arguments Undefined {M}.

Inductive backend := CUDA | ROCm.

Section memory.
Context {T : Type} `{Scalar T}.

Definition flat (mem : Mem T) (x : string) : list T := default [] (mem !! x).

(** [x.dimension(0)] *)
Definition dimension (mem : Mem T) (x : string) : nat := length (flat mem x).

(** Coefficient [i] of a [TensorMap]: [data[i]]. *)
Definition coeff (mem : Mem T) (x : string) (i : nat) : T := flat mem x !!! i.

(** The same read, telling a read outside the buffer apart. *)
Definition raw (mem : Mem T) (x : string) (i : nat) : option T := flat mem x !! i.

(** [e.reshape(single).broadcast(bcast)] of a rank-0 expression [e]:
    coefficient [i] is coefficient [i mod 1] of [e]. *)
Definition broadcast (e : nat → T) (i : nat) : T := e (i mod 1).

(** [x.device(d) = e]: every coefficient of [e] is evaluated on the memory
    before the statement and written to [x]. *)
Definition assign (x : string) (e : nat → T) (mem : Mem T) : Mem T :=
  <[x := imap (fun i _ => e i) (flat mem x)]> mem.

(** The same for an expression whose coefficients may read outside a
    buffer. *)
Definition assign_raw (x : string) (e : nat → option T) (mem : Mem T)
    : outcome (Mem T) :=
  match mapM e (seq 0 (length (flat mem x))) with
  | Some l => Done (<[x := l]> mem)
  | None => Undefined
  end.

(** [x[i] = a] inside a kernel. *)
Definition store (x : string) (i : nat) (a : T) (mem : Mem T) : Mem T :=
  <[x := <[i := a]> (flat mem x)]> mem.

(** [GPU_1D_KERNEL_LOOP(i, n) body]: the threads between them run [body]
    once for every [i < n]. *)
Definition GPU_1D_KERNEL_LOOP (n : nat) (body : nat → Mem T → Mem T)
    (mem : Mem T) : Mem T :=
  foldl (fun m i => body i m) mem (seq 0 n).

End memory.

(** [GpuLaunchConfig]: only [virtual_thread_count] is read here. *)
Record GpuLaunchConfig := { virtual_thread_count : nat }.

(** [int32 n = e;] for an [Eigen::Index] (64 bits) [e]: the low 32 bits,
    in two's complement. *)
Definition int32 (z : Z) : Z :=
  ((z + 2147483648) mod 4294967296 - 2147483648)%Z.

(** Modelled from the spec: [GetGpuLaunchConfig(int work_element_count, d)]
    (gpu_launch_config.h, not part of this file). A work count that is not
    positive is an invalid launch configuration and fatal; otherwise one
    virtual thread per element. *)
Definition GetGpuLaunchConfig (work_element_count : Z) : option GpuLaunchConfig :=
  if (0 <? work_element_count)%Z
  then Some {| virtual_thread_count := Z.to_nat work_element_count |}
  else None.

(** [TF_CHECK_OK(GpuLaunchKernel(kernel, ..., config, args...))] after
    [GetGpuLaunchConfig(data_dim, d)]. *)
Definition launch {T : Type} (data_dim : Z)
    (kernel : GpuLaunchConfig → Mem T → Mem T) (mem : Mem T) : outcome (Mem T) :=
  match GetGpuLaunchConfig data_dim with
  | Some config => Done (kernel config mem)
  | None => Fatal
  end.

(** ** The ROCm kernels *)

Section kernels.
Context {T : Type} `{Scalar T} `{Impl T}.
Local Open Scope sc_scope.

Definition ApplyAdagradKernel (cfg : GpuLaunchConfig)
    (var accum lr grad : string) (update_slots : bool) : Mem T → Mem T :=
  GPU_1D_KERNEL_LOOP (virtual_thread_count cfg) (fun i mem =>
    let mem :=
      if update_slots
      then store accum i (coeff mem accum i + coeff mem grad i * coeff mem grad i) mem
      else mem in
    store var i
      (coeff mem var i -
       coeff mem lr 0 * coeff mem grad i * impl_rsqrt (coeff mem accum i)) mem).

Definition ApplyAdagradV2Kernel (cfg : GpuLaunchConfig)
    (var accum lr epsilon grad : string) (update_slots : bool) : Mem T → Mem T :=
  GPU_1D_KERNEL_LOOP (virtual_thread_count cfg) (fun i mem =>
    let mem :=
      if update_slots
      then store accum i (coeff mem accum i + coeff mem grad i * coeff mem grad i) mem
      else mem in
    let update := coeff mem grad i / (impl_sqrt (coeff mem accum i) + coeff mem epsilon 0) in
    store var i (coeff mem var i - coeff mem lr 0 * update) mem).

Definition ApplyAdadeltaKernel (cfg : GpuLaunchConfig)
    (var accum accum_update plr prho peps grad : string) (mem0 : Mem T) : Mem T :=
  let rho := coeff mem0 prho 0 in
  let eps := coeff mem0 peps 0 in
  let lr := coeff mem0 plr 0 in
  GPU_1D_KERNEL_LOOP (virtual_thread_count cfg) (fun i mem =>
    let mem :=
      store accum i
        (coeff mem accum i * rho + coeff mem grad i * coeff mem grad i * (sc_one - rho))
        mem in
    let update :=
      impl_sqrt (coeff mem accum_update i + eps) * coeff mem grad i *
      impl_rsqrt (coeff mem accum i + eps) in
    let mem := store var i (coeff mem var i - update * lr) mem in
    store accum_update i
      (coeff mem accum_update i * rho + update * update * (sc_one - rho)) mem) mem0.

Definition ApplyRMSPropKernel (cfg : GpuLaunchConfig)
    (var ms mom plr prho pmomentum peps grad : string) (mem0 : Mem T) : Mem T :=
  let rho := coeff mem0 prho 0 in
  let eps := coeff mem0 peps 0 in
  let lr := coeff mem0 plr 0 in
  let momentum := coeff mem0 pmomentum 0 in
  GPU_1D_KERNEL_LOOP (virtual_thread_count cfg) (fun i mem =>
    let mem :=
      store ms i
        (coeff mem ms i +
         (sc_one - rho) * (coeff mem grad i * coeff mem grad i - coeff mem ms i)) mem in
    let mem :=
      store mom i
        (coeff mem mom i * momentum +
         lr * coeff mem grad i * impl_rsqrt (eps + coeff mem ms i)) mem in
    store var i (coeff mem var i - coeff mem mom i) mem) mem0.

Definition ApplyCenteredRMSPropKernel (cfg : GpuLaunchConfig)
    (var mg ms mom plr prho pmomentum peps grad : string) (mem0 : Mem T) : Mem T :=
  let rho := coeff mem0 prho 0 in
  let eps := coeff mem0 peps 0 in
  let lr := coeff mem0 plr 0 in
  let momentum := coeff mem0 pmomentum 0 in
  let one_minus_rho := sc_one - rho in
  GPU_1D_KERNEL_LOOP (virtual_thread_count cfg) (fun i mem =>
    let mem :=
      store ms i
        (coeff mem ms i +
         one_minus_rho * (coeff mem grad i * coeff mem grad i - coeff mem ms i)) mem in
    let mem :=
      store mg i
        (coeff mem mg i + one_minus_rho * (coeff mem grad i - coeff mem mg i)) mem in
    let denom := (coeff mem ms i - coeff mem mg i * coeff mem mg i) + eps in
    let mem :=
      store mom i
        (coeff mem mom i * momentum + lr * coeff mem grad i * impl_rsqrt denom) mem in
    store var i (coeff mem var i - coeff mem mom i) mem) mem0.

End kernels.

(** ** The functors *)

Section functors.
Context {T : Type} `{Scalar T} `{Impl T}.
Local Open Scope sc_scope.

(** [T(1) - s] for a scalar [s], before [reshape]/[broadcast]. *)
Definition one_minus (mem : Mem T) (s : string) (j : nat) : T :=
  sc_one - coeff mem s j.

Definition ApplyGradientDescent (mem : Mem T) : Mem T :=
  assign "var" (fun i =>
    coeff mem "var" i - broadcast (coeff mem "lr") i * coeff mem "grad" i) mem.

Definition ApplyAdagrad (b : backend) (update_slots : bool) (mem : Mem T)
    : outcome (Mem T) :=
  match b with
  | ROCm =>
      let data_dim := int32 (Z.of_nat (dimension mem "grad")) in
      launch data_dim
        (fun config => ApplyAdagradKernel config "var" "accum" "lr" "grad" update_slots)
        mem
  | CUDA =>
      let mem :=
        if update_slots
        then assign "accum" (fun i =>
               coeff mem "accum" i + coeff mem "grad" i * coeff mem "grad" i) mem
        else mem in
      Done (assign "var" (fun i =>
        coeff mem "var" i -
        broadcast (coeff mem "lr") i * coeff mem "grad" i *
        sc_rsqrt (coeff mem "accum" i)) mem)
  end.

Definition ApplyAdagradV2 (b : backend) (update_slots : bool) (mem : Mem T)
    : outcome (Mem T) :=
  match b with
  | ROCm =>
      let data_dim := int32 (Z.of_nat (dimension mem "grad")) in
      launch data_dim
        (fun config =>
           ApplyAdagradV2Kernel config "var" "accum" "lr" "epsilon" "grad" update_slots)
        mem
  | CUDA =>
      let mem :=
        if update_slots
        then assign "accum" (fun i =>
               coeff mem "accum" i + coeff mem "grad" i * coeff mem "grad" i) mem
        else mem in
      let update i :=
        coeff mem "grad" i /
        (sc_sqrt (coeff mem "accum" i) + broadcast (coeff mem "epsilon") i) in
      Done (assign "var" (fun i =>
        coeff mem "var" i - broadcast (coeff mem "lr") i * update i) mem)
  end.

Definition ApplyAdadelta (b : backend) (mem : Mem T) : outcome (Mem T) :=
  match b with
  | ROCm =>
      let data_dim := int32 (Z.of_nat (dimension mem "grad")) in
      launch data_dim
        (fun config =>
           ApplyAdadeltaKernel config "var" "accum" "accum_update"
             "lr" "rho" "epsilon" "grad")
        mem
  | CUDA =>
      let mem :=
        assign "accum" (fun i =>
          coeff mem "accum" i * broadcast (coeff mem "rho") i +
          coeff mem "grad" i * coeff mem "grad" i *
          (sc_one - broadcast (coeff mem "rho") i)) mem in
      let update (mem : Mem T) i :=
        sc_sqrt (coeff mem "accum_update" i + broadcast (coeff mem "epsilon") i) *
        sc_rsqrt (coeff mem "accum" i + broadcast (coeff mem "epsilon") i) *
        coeff mem "grad" i in
      let mem :=
        assign "var" (fun i =>
          coeff mem "var" i - update mem i * broadcast (coeff mem "lr") i) mem in
      Done (assign "accum_update" (fun i =>
        coeff mem "accum_update" i * broadcast (coeff mem "rho") i +
        update mem i * update mem i *
        (sc_one - broadcast (coeff mem "rho") i)) mem)
  end.

Definition ApplyMomentum (use_nesterov : bool) (mem : Mem T) : Mem T :=
  let mem :=
    assign "accum" (fun i =>
      coeff mem "accum" i * broadcast (coeff mem "momentum") i +
      coeff mem "grad" i) mem in
  if use_nesterov
  then assign "var" (fun i =>
         coeff mem "var" i -
         (coeff mem "grad" i * broadcast (coeff mem "lr") i +
          coeff mem "accum" i * broadcast (coeff mem "momentum") i *
          broadcast (coeff mem "lr") i)) mem
  else assign "var" (fun i =>
         coeff mem "var" i - broadcast (coeff mem "lr") i * coeff mem "accum" i) mem.

Definition ApplyKerasMomentum (use_nesterov : bool) (mem : Mem T) : Mem T :=
  let mem :=
    assign "accum" (fun i =>
      coeff mem "accum" i * broadcast (coeff mem "momentum") i -
      coeff mem "grad" i * broadcast (coeff mem "lr") i) mem in
  if use_nesterov
  then assign "var" (fun i =>
         coeff mem "var" i +
         (coeff mem "accum" i * broadcast (coeff mem "momentum") i -
          coeff mem "grad" i * broadcast (coeff mem "lr") i)) mem
  else assign "var" (fun i => coeff mem "var" i + coeff mem "accum" i) mem.

(** [lr * (1 - beta2_power).sqrt() / (1 - beta1_power)], a rank-0
    expression. *)
Definition adam_alpha (mem : Mem T) (j : nat) : T :=
  coeff mem "lr" j * sc_sqrt (one_minus mem "beta2_power" j) /
  one_minus mem "beta1_power" j.

Definition ApplyAdam (use_nesterov : bool) (mem : Mem T) : Mem T :=
  let mem :=
    assign "m" (fun i =>
      coeff mem "m" i +
      broadcast (one_minus mem "beta1") i * (coeff mem "grad" i - coeff mem "m" i))
      mem in
  let mem :=
    assign "v" (fun i =>
      coeff mem "v" i +
      broadcast (one_minus mem "beta2") i *
      (coeff mem "grad" i * coeff mem "grad" i - coeff mem "v" i)) mem in
  if use_nesterov
  then assign "var" (fun i =>
         coeff mem "var" i -
         broadcast (adam_alpha mem) i *
         (coeff mem "m" i * broadcast (coeff mem "beta1") i +
          broadcast (one_minus mem "beta1") i * coeff mem "grad" i) /
         (broadcast (coeff mem "epsilon") i + sc_sqrt (coeff mem "v" i))) mem
  else assign "var" (fun i =>
         coeff mem "var" i -
         broadcast (adam_alpha mem) i * coeff mem "m" i /
         (broadcast (coeff mem "epsilon") i + sc_sqrt (coeff mem "v" i))) mem.

Definition ApplyRMSProp (b : backend) (mem : Mem T) : outcome (Mem T) :=
  match b with
  | ROCm =>
      let data_dim := int32 (Z.of_nat (dimension mem "grad")) in
      launch data_dim
        (fun config =>
           ApplyRMSPropKernel config "var" "ms" "mom"
             "lr" "rho" "momentum" "epsilon" "grad")
        mem
  | CUDA =>
      let mem :=
        assign "ms" (fun i =>
          coeff mem "ms" i +
          broadcast (one_minus mem "rho") i *
          (coeff mem "grad" i * coeff mem "grad" i - coeff mem "ms" i)) mem in
      let mem :=
        assign "mom" (fun i =>
          coeff mem "mom" i * broadcast (coeff mem "momentum") i +
          broadcast (coeff mem "lr") i * coeff mem "grad" i /
          sc_sqrt (broadcast (coeff mem "epsilon") i + coeff mem "ms" i)) mem in
      Done (assign "var" (fun i => coeff mem "var" i - coeff mem "mom" i) mem)
  end.

Definition ApplyCenteredRMSProp (b : backend) (mem : Mem T) : outcome (Mem T) :=
  match b with
  | ROCm =>
      let data_dim := int32 (Z.of_nat (dimension mem "grad")) in
      launch data_dim
        (fun config =>
           ApplyCenteredRMSPropKernel config "var" "mg" "ms" "mom"
             "lr" "rho" "momentum" "epsilon" "grad")
        mem
  | CUDA =>
      let one_minus_rho (mem : Mem T) := broadcast (one_minus mem "rho") in
      let mem :=
        assign "ms" (fun i =>
          coeff mem "ms" i +
          one_minus_rho mem i *
          (coeff mem "grad" i * coeff mem "grad" i - coeff mem "ms" i)) mem in
      let mem :=
        assign "mg" (fun i =>
          coeff mem "mg" i +
          one_minus_rho mem i * (coeff mem "grad" i - coeff mem "mg" i)) mem in
      let denom (mem : Mem T) i :=
        (coeff mem "ms" i - coeff mem "mg" i * coeff mem "mg" i) +
        broadcast (coeff mem "epsilon") i in
      let mem :=
        assign "mom" (fun i =>
          coeff mem "mom" i * broadcast (coeff mem "momentum") i +
          broadcast (coeff mem "lr") i * coeff mem "grad" i /
          sc_sqrt (denom mem i)) mem in
      Done (assign "var" (fun i => coeff mem "var" i - coeff mem "mom" i) mem)
  end.

End functors.

Section real_functors.
Context {T : Type} `{RealScalar T}.
Local Open Scope sc_scope.

Definition ApplyAdamWithAmsgrad (mem : Mem T) : Mem T :=
  let mem :=
    assign "m" (fun i =>
      coeff mem "m" i +
      broadcast (one_minus mem "beta1") i * (coeff mem "grad" i - coeff mem "m" i))
      mem in
  let mem :=
    assign "v" (fun i =>
      coeff mem "v" i +
      broadcast (one_minus mem "beta2") i *
      (coeff mem "grad" i * coeff mem "grad" i - coeff mem "v" i)) mem in
  let mem :=
    assign "vhat" (fun i => rs_max (coeff mem "vhat" i) (coeff mem "v" i)) mem in
  assign "var" (fun i =>
    coeff mem "var" i -
    broadcast (adam_alpha mem) i * coeff mem "m" i /
    (broadcast (coeff mem "epsilon") i + sc_sqrt (coeff mem "vhat" i))) mem.

(** In the last statement [lr] and [epsilon] enter the expression as the
    rank-0 tensors they are, without [reshape]/[broadcast]: coefficient
    [i] of the expression reads [lr.data()[i]] and [epsilon.data()[i]]. *)
Definition ApplyAdaMax (mem : Mem T) : outcome (Mem T) :=
  let mem :=
    assign "m" (fun i =>
      coeff mem "m" i +
      broadcast (one_minus mem "beta1") i * (coeff mem "grad" i - coeff mem "m" i))
      mem in
  let mem :=
    assign "v" (fun i =>
      rs_max (broadcast (coeff mem "beta2") i * coeff mem "v" i)
             (rs_abs (coeff mem "grad" i))) mem in
  assign_raw "var" (fun i =>
    lr_i ← raw mem "lr" i;
    epsilon_i ← raw mem "epsilon" i;
    Some (coeff mem "var" i -
          lr_i / broadcast (one_minus mem "beta1_power") i *
          (coeff mem "m" i / (coeff mem "v" i + epsilon_i)))) mem.

Definition ApplyAddSign (mem : Mem T) : Mem T :=
  let beta_bcast (mem : Mem T) := broadcast (coeff mem "beta") in
  let one_minus_beta (mem : Mem T) := broadcast (one_minus mem "beta") in
  let mem :=
    assign "m" (fun i =>
      coeff mem "m" i * beta_bcast mem i +
      coeff mem "grad" i * one_minus_beta mem i) mem in
  let sign_gm (mem : Mem T) i :=
    rs_sign (coeff mem "grad" i) * rs_sign (coeff mem "m" i) in
  assign "var" (fun i =>
    coeff mem "var" i -
    broadcast (coeff mem "lr") i *
    (broadcast (coeff mem "alpha") i +
     broadcast (coeff mem "sign_decay") i * sign_gm mem i) *
    coeff mem "grad" i) mem.

Context `{Exp T}.

Definition ApplyPowerSign (mem : Mem T) : Mem T :=
  let beta_bcast (mem : Mem T) := broadcast (coeff mem "beta") in
  let one_minus_beta (mem : Mem T) := broadcast (one_minus mem "beta") in
  let mem :=
    assign "m" (fun i =>
      coeff mem "m" i * beta_bcast mem i +
      coeff mem "grad" i * one_minus_beta mem i) mem in
  let sign_gm (mem : Mem T) i :=
    rs_sign (coeff mem "grad" i) * rs_sign (coeff mem "m" i) in
  let grad_scale (mem : Mem T) i :=
    sc_exp (broadcast (coeff mem "logbase") i *
            broadcast (coeff mem "sign_decay") i * sign_gm mem i) in
  assign "var" (fun i =>
    coeff mem "var" i -
    broadcast (coeff mem "lr") i * grad_scale mem i * coeff mem "grad" i) mem.

(** *** Every functor of the file under one name *)

Inductive family :=
  | GradientDescent
  | Adagrad (update_slots : bool)
  | AdagradV2 (update_slots : bool)
  | Adadelta
  | Momentum (use_nesterov : bool)
  | KerasMomentum (use_nesterov : bool)
  | Adam (use_nesterov : bool)
  | AdamWithAmsgrad
  | AdaMax
  | RMSProp
  | CenteredRMSProp
  | AddSign
  | PowerSign.

Context `{Impl T}.

Definition call (b : backend) (f : family) (mem : Mem T) : outcome (Mem T) :=
  match f with
  | GradientDescent => Done (ApplyGradientDescent mem)
  | Adagrad update_slots => ApplyAdagrad b update_slots mem
  | AdagradV2 update_slots => ApplyAdagradV2 b update_slots mem
  | Adadelta => ApplyAdadelta b mem
  | Momentum use_nesterov => Done (ApplyMomentum use_nesterov mem)
  | KerasMomentum use_nesterov => Done (ApplyKerasMomentum use_nesterov mem)
  | Adam use_nesterov => Done (ApplyAdam use_nesterov mem)
  | AdamWithAmsgrad => Done (ApplyAdamWithAmsgrad mem)
  | AdaMax => ApplyAdaMax mem
  | RMSProp => ApplyRMSProp b mem
  | CenteredRMSProp => ApplyCenteredRMSProp b mem
  | AddSign => Done (ApplyAddSign mem)
  | PowerSign => Done (ApplyPowerSign mem)
  end.

(** The arrays a family may write: the parameter array and its state. *)
Definition written (f : family) : list string :=
  match f with
  | GradientDescent => ["var"]
  | Adagrad _ | AdagradV2 _ => ["var"; "accum"]
  | Adadelta => ["var"; "accum"; "accum_update"]
  | Momentum _ | KerasMomentum _ => ["var"; "accum"]
  | Adam _ | AdaMax => ["var"; "m"; "v"]
  | AdamWithAmsgrad => ["var"; "m"; "v"; "vhat"]
  | RMSProp => ["var"; "ms"; "mom"]
  | CenteredRMSProp => ["var"; "mg"; "ms"; "mom"]
  | AddSign | PowerSign => ["var"; "m"]
  end.

End real_functors.

(** ** Arrays in memory *)

Section arrays.
Context {T : Type} `{Scalar T}.
Implicit Types (mem : Mem T) (x y : string) (l : list T) (f : nat → T).

(** [x] names an array of [n] elements. *)
Definition has_array (mem : Mem T) (x : string) (n : nat) : Prop :=
  ∃ l, mem !! x = Some l ∧ length l = n.

(** The first [n] elements replaced by [f], the rest as they were. *)
Definition upd_prefix (n : nat) (f : nat → T) (l : list T) : list T :=
  imap (fun i old => if decide (i < n) then f i else old) l.

End arrays.

(** ** Elementwise updates of the memory *)

Section pointwise.
Context {T : Type} `{Scalar T}.
Implicit Types (mem : Mem T) (x k : string) (P : string → nat).

(** For some of the arrays, the new value of element [i]. *)
Definition elementwise := string → option (nat → T).
Implicit Types F : elementwise.

(** Array [k] has its first [P k] elements replaced. *)
Definition pointwise_upto (P : string → nat) (F : elementwise) (mem : Mem T)
    : Mem T :=
  map_imap (fun k l =>
    Some (match F k with Some f => upd_prefix (P k) f l | None => l end)) mem.

(** Every element of every array of [F] replaced. *)
Definition pointwise (F : elementwise) (mem : Mem T) : Mem T :=
  map_imap (fun k l =>
    Some (match F k with Some f => imap (fun i _ => f i) l | None => l end)) mem.

Definition override (P : string → nat) (x : string) (n : nat) : string → nat :=
  fun k => if decide (k = x) then n else P k.

End pointwise.

(** ** What each path computes, element by element *)

Section results.
Context {T : Type} `{Scalar T} `{Impl T}.
Local Open Scope sc_scope.
Implicit Types (mem : Mem T).

(** *** Adagrad *)

Definition adagrad_accum (update_slots : bool) mem (i : nat) : T :=
  if update_slots
  then coeff mem "accum" i + coeff mem "grad" i * coeff mem "grad" i
  else coeff mem "accum" i.

(** [rsqrt] is the reciprocal square root the path calls. *)
Definition adagrad_var (rsqrt : T → T) (update_slots : bool) mem (i : nat) : T :=
  coeff mem "var" i -
  coeff mem "lr" 0 * coeff mem "grad" i * rsqrt (adagrad_accum update_slots mem i).

Definition adagrad_table (rsqrt : T → T) (update_slots : bool) mem : elementwise :=
  fun k =>
    if decide (k = "var") then Some (adagrad_var rsqrt update_slots mem)
    else if decide (k = "accum") then
      (if update_slots then Some (adagrad_accum update_slots mem) else None)
    else None.

(** *** AdagradV2 *)

(** [sqrt] is the square root the path calls. *)
Definition adagradv2_var (sqrt : T → T) (update_slots : bool) mem (i : nat) : T :=
  coeff mem "var" i -
  coeff mem "lr" 0 *
  (coeff mem "grad" i / (sqrt (adagrad_accum update_slots mem i) + coeff mem "epsilon" 0)).

Definition adagradv2_table (sqrt : T → T) (update_slots : bool) mem : elementwise :=
  fun k =>
    if decide (k = "var") then Some (adagradv2_var sqrt update_slots mem)
    else if decide (k = "accum") then
      (if update_slots then Some (adagrad_accum update_slots mem) else None)
    else None.

(** *** Adadelta *)

Definition adadelta_accum mem (i : nat) : T :=
  coeff mem "accum" i * coeff mem "rho" 0 +
  coeff mem "grad" i * coeff mem "grad" i * (sc_one - coeff mem "rho" 0).

(** [update] of the kernel: [sqrt * grad * rsqrt]. *)
Definition adadelta_update_kernel mem (i : nat) : T :=
  impl_sqrt (coeff mem "accum_update" i + coeff mem "epsilon" 0) * coeff mem "grad" i *
  impl_rsqrt (adadelta_accum mem i + coeff mem "epsilon" 0).

(** [update] of the Eigen expression: [sqrt * rsqrt * grad]. *)
Definition adadelta_update_eigen mem (i : nat) : T :=
  sc_sqrt (coeff mem "accum_update" i + coeff mem "epsilon" 0) *
  sc_rsqrt (adadelta_accum mem i + coeff mem "epsilon" 0) * coeff mem "grad" i.

Definition adadelta_table (update : Mem T → nat → T) mem : elementwise :=
  fun k =>
    if decide (k = "var") then
      Some (fun i => coeff mem "var" i - update mem i * coeff mem "lr" 0)
    else if decide (k = "accum") then Some (adadelta_accum mem)
    else if decide (k = "accum_update") then
      Some (fun i =>
        coeff mem "accum_update" i * coeff mem "rho" 0 +
        update mem i * update mem i * (sc_one - coeff mem "rho" 0))
    else None.

(** *** RMSProp *)

Definition rmsprop_ms mem (i : nat) : T :=
  coeff mem "ms" i +
  (sc_one - coeff mem "rho" 0) *
  (coeff mem "grad" i * coeff mem "grad" i - coeff mem "ms" i).

(** The kernel multiplies by [impl_rsqrt]. *)
Definition rmsprop_mom_kernel mem (i : nat) : T :=
  coeff mem "mom" i * coeff mem "momentum" 0 +
  coeff mem "lr" 0 * coeff mem "grad" i *
  impl_rsqrt (coeff mem "epsilon" 0 + rmsprop_ms mem i).

(** The Eigen expression divides by [sqrt]. *)
Definition rmsprop_mom_eigen mem (i : nat) : T :=
  coeff mem "mom" i * coeff mem "momentum" 0 +
  coeff mem "lr" 0 * coeff mem "grad" i /
  sc_sqrt (coeff mem "epsilon" 0 + rmsprop_ms mem i).

Definition rmsprop_table (mom : Mem T → nat → T) mem : elementwise :=
  fun k =>
    if decide (k = "var") then Some (fun i => coeff mem "var" i - mom mem i)
    else if decide (k = "ms") then Some (rmsprop_ms mem)
    else if decide (k = "mom") then Some (mom mem)
    else None.

(** *** CenteredRMSProp *)

Definition centered_mg mem (i : nat) : T :=
  coeff mem "mg" i +
  (sc_one - coeff mem "rho" 0) * (coeff mem "grad" i - coeff mem "mg" i).

Definition centered_denom mem (i : nat) : T :=
  (rmsprop_ms mem i - centered_mg mem i * centered_mg mem i) + coeff mem "epsilon" 0.

Definition centered_mom_kernel mem (i : nat) : T :=
  coeff mem "mom" i * coeff mem "momentum" 0 +
  coeff mem "lr" 0 * coeff mem "grad" i * impl_rsqrt (centered_denom mem i).

Definition centered_mom_eigen mem (i : nat) : T :=
  coeff mem "mom" i * coeff mem "momentum" 0 +
  coeff mem "lr" 0 * coeff mem "grad" i / sc_sqrt (centered_denom mem i).

Definition centered_table (mom : Mem T → nat → T) mem : elementwise :=
  fun k =>
    if decide (k = "var") then Some (fun i => coeff mem "var" i - mom mem i)
    else if decide (k = "mg") then Some (centered_mg mem)
    else if decide (k = "ms") then Some (rmsprop_ms mem)
    else if decide (k = "mom") then Some (mom mem)
    else None.

(** *** Adam *)

Definition adam_m mem (i : nat) : T :=
  coeff mem "m" i +
  (sc_one - coeff mem "beta1" 0) * (coeff mem "grad" i - coeff mem "m" i).

Definition adam_v mem (i : nat) : T :=
  coeff mem "v" i +
  (sc_one - coeff mem "beta2" 0) *
  (coeff mem "grad" i * coeff mem "grad" i - coeff mem "v" i).

(** The step size [lr * sqrt(1 - beta2_power) / (1 - beta1_power)]. *)
Definition adam_step mem : T :=
  coeff mem "lr" 0 * sc_sqrt (sc_one - coeff mem "beta2_power" 0) /
  (sc_one - coeff mem "beta1_power" 0).

Definition adam_var (use_nesterov : bool) mem (i : nat) : T :=
  if use_nesterov
  then coeff mem "var" i -
       adam_step mem *
       (adam_m mem i * coeff mem "beta1" 0 +
        (sc_one - coeff mem "beta1" 0) * coeff mem "grad" i) /
       (coeff mem "epsilon" 0 + sc_sqrt (adam_v mem i))
  else coeff mem "var" i -
       adam_step mem * adam_m mem i /
       (coeff mem "epsilon" 0 + sc_sqrt (adam_v mem i)).

Definition adam_table (use_nesterov : bool) mem : elementwise :=
  fun k =>
    if decide (k = "var") then Some (adam_var use_nesterov mem)
    else if decide (k = "m") then Some (adam_m mem)
    else if decide (k = "v") then Some (adam_v mem)
    else None.

End results.

(** *** AdamWithAmsgrad *)

Section real_results.
Context {T : Type} `{RealScalar T}.
Local Open Scope sc_scope.
Implicit Types (mem : Mem T).

Definition amsgrad_vhat mem (i : nat) : T :=
  rs_max (coeff mem "vhat" i) (adam_v mem i).

Definition amsgrad_var mem (i : nat) : T :=
  coeff mem "var" i -
  adam_step mem * adam_m mem i /
  (coeff mem "epsilon" 0 + sc_sqrt (amsgrad_vhat mem i)).

Definition amsgrad_table mem : elementwise :=
  fun k =>
    if decide (k = "var") then Some (amsgrad_var mem)
    else if decide (k = "m") then Some (adam_m mem)
    else if decide (k = "v") then Some (adam_v mem)
    else if decide (k = "vhat") then Some (amsgrad_vhat mem)
    else None.

(** *** AdaMax *)

Definition adamax_v mem (i : nat) : T :=
  rs_max (coeff mem "beta2" 0 * coeff mem "v" i) (rs_abs (coeff mem "grad" i)).

(** Element [i] of [var] is computed from element [i] of the [lr] and
    [epsilon] buffers. *)
Definition adamax_var mem (i : nat) : T :=
  coeff mem "var" i -
  coeff mem "lr" i / (sc_one - coeff mem "beta1_power" 0) *
  (adam_m mem i / (adamax_v mem i + coeff mem "epsilon" i)).

Definition adamax_mv_table mem : elementwise :=
  fun k =>
    if decide (k = "m") then Some (adam_m mem)
    else if decide (k = "v") then Some (adamax_v mem)
    else None.

Definition adamax_table mem : elementwise :=
  fun k =>
    if decide (k = "var") then Some (adamax_var mem)
    else if decide (k = "m") then Some (adam_m mem)
    else if decide (k = "v") then Some (adamax_v mem)
    else None.

End real_results.

(** ** Read-only buffers, kernels, well-formed calls *)

(** The [ConstScalar] and [ConstFlat] parameters of each functor. *)
Definition read_only (f : family) : list string :=
  match f with
  | GradientDescent | Adagrad _ => ["lr"; "grad"]
  | AdagradV2 _ => ["lr"; "epsilon"; "grad"]
  | Adadelta => ["lr"; "rho"; "epsilon"; "grad"]
  | Momentum _ | KerasMomentum _ => ["lr"; "grad"; "momentum"]
  | Adam _ | AdamWithAmsgrad =>
      ["beta1_power"; "beta2_power"; "lr"; "beta1"; "beta2"; "epsilon"; "grad"]
  | AdaMax => ["beta1_power"; "lr"; "beta1"; "beta2"; "epsilon"; "grad"]
  | RMSProp | CenteredRMSProp => ["lr"; "rho"; "momentum"; "epsilon"; "grad"]
  | AddSign => ["lr"; "alpha"; "sign_decay"; "beta"; "grad"]
  | PowerSign => ["lr"; "logbase"; "sign_decay"; "beta"; "grad"]
  end.

Section paths.
Context {T : Type} `{RealScalar T} `{Exp T} `{Impl T}.
Implicit Types (mem : Mem T).

(** The kernel that the ROCm branch of a functor launches, for the
    functors that have one. *)
Definition kernel_of (f : family) : option (GpuLaunchConfig → Mem T → Mem T) :=
  match f with
  | Adagrad update_slots =>
      Some (fun config => ApplyAdagradKernel config "var" "accum" "lr" "grad" update_slots)
  | AdagradV2 update_slots =>
      Some (fun config =>
        ApplyAdagradV2Kernel config "var" "accum" "lr" "epsilon" "grad" update_slots)
  | Adadelta =>
      Some (fun config =>
        ApplyAdadeltaKernel config "var" "accum" "accum_update"
          "lr" "rho" "epsilon" "grad")
  | RMSProp =>
      Some (fun config =>
        ApplyRMSPropKernel config "var" "ms" "mom"
          "lr" "rho" "momentum" "epsilon" "grad")
  | CenteredRMSProp =>
      Some (fun config =>
        ApplyCenteredRMSPropKernel config "var" "mg" "ms" "mom"
          "lr" "rho" "momentum" "epsilon" "grad")
  | _ => None
  end.

(** The parameter array and the state arrays all have [N] elements. *)
Definition well_formed (f : family) (N : nat) (mem : Mem T) : Prop :=
  Forall (fun x => has_array mem x N) (written f).

(** A call is rejected when it does not run to its end. *)
Definition rejected (o : outcome (Mem T)) : Prop :=
  match o with
  | Done _ => False
  | Fatal | Undefined => True
  end.

End paths.

(** The reciprocal square root a path calls: the Eigen expression the
    native one, the kernel [impl_rsqrt]. *)
Definition path_rsqrt {T : Type} `{Scalar T} `{Impl T} (b : backend) : T → T :=
  match b with
  | CUDA => sc_rsqrt
  | ROCm => impl_rsqrt
  end.

(** The Adagrad scenario of the specification: [var=[1.0]], [accum=[0.0]],
    [lr=0.1], [grad=[2.0]]. *)
Definition adagrad_scenario : Mem R :=
  <["var" := [1%R]]> (<["accum" := [0%R]]>
    (<["lr" := [(1/10)%R]]> (<["grad" := [2%R]]> ∅))).

(** The Adam scenario of the specification (step 1), for any parameter
    value [var0]. *)
Definition adam_scenario (var0 : R) : Mem R :=
  <["var" := [var0]]> (<["m" := [0%R]]> (<["v" := [0%R]]> (<["grad" := [1%R]]>
    (<["beta1" := [(9/10)%R]]> (<["beta2" := [(999/1000)%R]]>
      (<["beta1_power" := [(9/10)%R]]> (<["beta2_power" := [(999/1000)%R]]>
        (<["lr" := [(1/1000)%R]]> (<["epsilon" := [(1/100000000)%R]]> ∅))))))))).

(** A memory for AdamWithAmsgrad with one element. *)
Definition amsgrad_example : Mem R :=
  <["vhat" := [2%R]]> (adam_scenario 1).

(** A GradientDescent call on empty arrays. *)
Definition empty_gradient_descent : Mem R :=
  <["var" := []]> (<["lr" := [(1/10)%R]]> (<["grad" := []]> ∅)).

(** An Adagrad call on empty arrays. *)
Definition empty_adagrad : Mem R :=
  <["var" := []]> (<["accum" := []]> (<["lr" := [(1/10)%R]]> (<["grad" := []]> ∅))).

(** An AdaMax call on two elements; [lr] and [epsilon] are followed in
    memory by [after_lr] and [after_epsilon], when there is anything. *)
Definition adamax_input (after_lr after_epsilon : list R) : Mem R :=
  <["var" := [1%R; 1%R]]> (<["m" := [0%R; 0%R]]> (<["v" := [0%R; 0%R]]>
    (<["grad" := [1%R; 1%R]]>
      (<["beta1_power" := [(9/10)%R]]> (<["beta1" := [(9/10)%R]]>
        (<["beta2" := [(999/1000)%R]]>
          (<["lr" := (1/1000)%R :: after_lr]>
            (<["epsilon" := (1/100000000)%R :: after_epsilon]> ∅)))))))).

(** ** The complex square roots as the specification writes them *)

Section complex_roots.
Local Open Scope R_scope.

(** The factor by which [root2] misses [1/sqrt(2)]. *)
Definition root2_excess : R := root2 * sqrt 2.

(** The sign the code gives the imaginary part of [impl_sqrt]. *)
Definition branch_sign (im : R) : R := if Rle_dec 0 im then 1 else -1.

(** The square root as the specification writes it: real part
    [sqrt((mod+re)/2)], imaginary part [sqrt((mod-re)/2)] with the sign of
    [im], non-negative for [im >= 0]. *)
Definition sqrt_of_spec (x : complex R) : complex R :=
  let re := real x in
  let im := imag x in
  let mod_x := sqrt (re * re + im * im) in
  Complex (sqrt ((mod_x + re) / 2)) (sqrt ((mod_x - re) / 2) * branch_sign im).

(** What [root2], as a constant of precision [p], misses [1/sqrt(2)] by,
    relative to it. *)
Definition root2_error (p : precision) : R :=
  @root2 R _ (R_stored p) * sqrt 2 - 1.

(** [0.98] as the [double] it is in the comparisons of [impl_rsqrt]. *)
Definition threshold : R := Q2R (double_lit 0.98).

End complex_roots.

(** An RMSProp call on one element. *)
Definition rmsprop_example : Mem R :=
  <["var" := [1%R]]> (<["ms" := [1%R]]> (<["mom" := [0%R]]> (<["grad" := [3%R]]>
    (<["lr" := [(1/10)%R]]> (<["rho" := [(9/10)%R]]>
      (<["momentum" := [(1/2)%R]]> (<["epsilon" := [(1/100)%R]]> ∅))))))).

(** *** Complex elements *)

Section complex_elements.
Local Open Scope R_scope.

(** The product of [std::complex] under exact arithmetic. *)
Definition Cmul (x y : complex R) : complex R :=
  Complex (real x * real y - imag x * imag y) (real x * imag y + imag x * real y).

End complex_elements.

(** RMSProp on binary64 with [ms = 9], [rho = 1], [epsilon = 0], [lr = 1],
    [grad = 5]. *)
Definition rmsprop_binary64 : Mem float :=
  <["var" := [0%float]]> (<["ms" := [9%float]]> (<["mom" := [0%float]]>
    (<["grad" := [5%float]]> (<["lr" := [1%float]]> (<["rho" := [1%float]]>
      (<["momentum" := [0%float]]> (<["epsilon" := [0%float]]> ∅))))))).

(** ** The functors without a kernel, element by element *)

Section more_results.
Context {T : Type} `{Scalar T}.
Local Open Scope sc_scope.
Implicit Types (mem : Mem T).

(** *** GradientDescent *)

Definition gradient_descent_table mem : elementwise :=
  fun k =>
    if decide (k = "var")
    then Some (fun i => coeff mem "var" i - coeff mem "lr" 0 * coeff mem "grad" i)
    else None.

(** *** Momentum *)

Definition momentum_accum mem (i : nat) : T :=
  coeff mem "accum" i * coeff mem "momentum" 0 + coeff mem "grad" i.

Definition momentum_var (use_nesterov : bool) mem (i : nat) : T :=
  if use_nesterov
  then coeff mem "var" i -
       (coeff mem "grad" i * coeff mem "lr" 0 +
        momentum_accum mem i * coeff mem "momentum" 0 * coeff mem "lr" 0)
  else coeff mem "var" i - coeff mem "lr" 0 * momentum_accum mem i.

Definition momentum_table (use_nesterov : bool) mem : elementwise :=
  fun k =>
    if decide (k = "var") then Some (momentum_var use_nesterov mem)
    else if decide (k = "accum") then Some (momentum_accum mem)
    else None.

(** *** KerasMomentum *)

Definition keras_accum mem (i : nat) : T :=
  coeff mem "accum" i * coeff mem "momentum" 0 -
  coeff mem "grad" i * coeff mem "lr" 0.

Definition keras_var (use_nesterov : bool) mem (i : nat) : T :=
  if use_nesterov
  then coeff mem "var" i +
       (keras_accum mem i * coeff mem "momentum" 0 -
        coeff mem "grad" i * coeff mem "lr" 0)
  else coeff mem "var" i + keras_accum mem i.

Definition keras_table (use_nesterov : bool) mem : elementwise :=
  fun k =>
    if decide (k = "var") then Some (keras_var use_nesterov mem)
    else if decide (k = "accum") then Some (keras_accum mem)
    else None.

End more_results.

Section more_real_results.
Context {T : Type} `{RealScalar T}.
Local Open Scope sc_scope.
Implicit Types (mem : Mem T).

(** *** AddSign and PowerSign *)

Definition sign_m mem (i : nat) : T :=
  coeff mem "m" i * coeff mem "beta" 0 +
  coeff mem "grad" i * (sc_one - coeff mem "beta" 0).

Definition sign_gm mem (i : nat) : T :=
  rs_sign (coeff mem "grad" i) * rs_sign (sign_m mem i).

Definition addsign_var mem (i : nat) : T :=
  coeff mem "var" i -
  coeff mem "lr" 0 *
  (coeff mem "alpha" 0 + coeff mem "sign_decay" 0 * sign_gm mem i) *
  coeff mem "grad" i.

Definition addsign_table mem : elementwise :=
  fun k =>
    if decide (k = "var") then Some (addsign_var mem)
    else if decide (k = "m") then Some (sign_m mem)
    else None.

Context `{Exp T}.

Definition powersign_var mem (i : nat) : T :=
  coeff mem "var" i -
  coeff mem "lr" 0 *
  sc_exp (coeff mem "logbase" 0 * coeff mem "sign_decay" 0 * sign_gm mem i) *
  coeff mem "grad" i.

Definition powersign_table mem : elementwise :=
  fun k =>
    if decide (k = "var") then Some (powersign_var mem)
    else if decide (k = "m") then Some (sign_m mem)
    else None.

End more_real_results.

(** The square root a path calls: the Eigen expression the native one, the
    kernel [impl_sqrt]. *)
Definition path_sqrt {T : Type} `{Scalar T} `{Impl T} (b : backend) : T → T :=
  match b with
  | CUDA => sc_sqrt
  | ROCm => impl_sqrt
  end.

(** A CenteredRMSProp call on one element. *)
Definition centered_example : Mem R :=
  <["mg" := [0%R]]> rmsprop_example.

(** A Momentum or KerasMomentum call on one element with [momentum = 0]. *)
Definition momentum_example : Mem R :=
  <["var" := [1%R]]> (<["accum" := [5%R]]> (<["grad" := [2%R]]>
    (<["lr" := [(1/10)%R]]> (<["momentum" := [0%R]]> ∅)))).

(** An AddSign or PowerSign call on one element with [sign_decay = 0] and
    [alpha = 1]. *)
Definition sign_example : Mem R :=
  <["var" := [1%R]]> (<["m" := [5%R]]> (<["grad" := [2%R]]>
    (<["lr" := [(1/10)%R]]> (<["alpha" := [1%R]]> (<["logbase" := [2%R]]>
      (<["sign_decay" := [0%R]]> (<["beta" := [(9/10)%R]]> ∅))))))).

(** An RMSProp call on three elements. *)
Definition rmsprop_three : Mem R :=
  <["var" := [1%R; 2%R; 3%R]]> (<["ms" := [1%R; 0%R; 4%R]]>
    (<["mom" := [0%R; 1%R; 2%R]]> (<["grad" := [3%R; 1%R; 2%R]]>
      (<["lr" := [(1/10)%R]]> (<["rho" := [(9/10)%R]]>
        (<["momentum" := [(1/2)%R]]> (<["epsilon" := [(1/100)%R]]> ∅))))))).

(** ** The kernels thread by thread *)

Section threads.
Context {T : Type} `{Scalar T} `{Impl T}.
Local Open Scope sc_scope.
Implicit Types (mem : Mem T).

(** The body of [GPU_1D_KERNEL_LOOP] run for the indices of [order], in
    that order: the schedule of the threads. *)
Definition kernel_threads (order : list nat) (body : nat → Mem T → Mem T)
    (mem : Mem T) : Mem T :=
  foldl (fun m i => body i m) mem order.

(** The loop bodies of the five kernels. *)
Definition ApplyAdagradKernel_body (var accum lr grad : string)
    (update_slots : bool) (i : nat) (mem : Mem T) : Mem T :=
  let mem :=
    if update_slots
    then store accum i (coeff mem accum i + coeff mem grad i * coeff mem grad i) mem
    else mem in
  store var i
    (coeff mem var i -
     coeff mem lr 0 * coeff mem grad i * impl_rsqrt (coeff mem accum i)) mem.

Definition ApplyAdagradV2Kernel_body (var accum lr epsilon grad : string)
    (update_slots : bool) (i : nat) (mem : Mem T) : Mem T :=
  let mem :=
    if update_slots
    then store accum i (coeff mem accum i + coeff mem grad i * coeff mem grad i) mem
    else mem in
  let update := coeff mem grad i / (impl_sqrt (coeff mem accum i) + coeff mem epsilon 0) in
  store var i (coeff mem var i - coeff mem lr 0 * update) mem.

Definition ApplyAdadeltaKernel_body (var accum accum_update grad : string)
    (rho eps lr : T) (i : nat) (mem : Mem T) : Mem T :=
  let mem :=
    store accum i
      (coeff mem accum i * rho + coeff mem grad i * coeff mem grad i * (sc_one - rho))
      mem in
  let update :=
    impl_sqrt (coeff mem accum_update i + eps) * coeff mem grad i *
    impl_rsqrt (coeff mem accum i + eps) in
  let mem := store var i (coeff mem var i - update * lr) mem in
  store accum_update i
    (coeff mem accum_update i * rho + update * update * (sc_one - rho)) mem.

Definition ApplyRMSPropKernel_body (var ms mom grad : string)
    (rho eps lr momentum : T) (i : nat) (mem : Mem T) : Mem T :=
  let mem :=
    store ms i
      (coeff mem ms i +
       (sc_one - rho) * (coeff mem grad i * coeff mem grad i - coeff mem ms i)) mem in
  let mem :=
    store mom i
      (coeff mem mom i * momentum +
       lr * coeff mem grad i * impl_rsqrt (eps + coeff mem ms i)) mem in
  store var i (coeff mem var i - coeff mem mom i) mem.

Definition ApplyCenteredRMSPropKernel_body (var mg ms mom grad : string)
    (rho eps lr momentum : T) (i : nat) (mem : Mem T) : Mem T :=
  let one_minus_rho := sc_one - rho in
  let mem :=
    store ms i
      (coeff mem ms i +
       one_minus_rho * (coeff mem grad i * coeff mem grad i - coeff mem ms i)) mem in
  let mem :=
    store mg i
      (coeff mem mg i + one_minus_rho * (coeff mem grad i - coeff mem mg i)) mem in
  let denom := (coeff mem ms i - coeff mem mg i * coeff mem mg i) + eps in
  let mem :=
    store mom i
      (coeff mem mom i * momentum + lr * coeff mem grad i * impl_rsqrt denom) mem in
  store var i (coeff mem var i - coeff mem mom i) mem.

(** The loop body of the kernel of a family, as its functor launches it on
    the memory [mem0]. *)
Definition body_of (f : family) (mem0 : Mem T) : option (nat → Mem T → Mem T) :=
  match f with
  | Adagrad update_slots =>
      Some (ApplyAdagradKernel_body "var" "accum" "lr" "grad" update_slots)
  | AdagradV2 update_slots =>
      Some (ApplyAdagradV2Kernel_body "var" "accum" "lr" "epsilon" "grad" update_slots)
  | Adadelta =>
      Some (ApplyAdadeltaKernel_body "var" "accum" "accum_update" "grad"
              (coeff mem0 "rho" 0) (coeff mem0 "epsilon" 0) (coeff mem0 "lr" 0))
  | RMSProp =>
      Some (ApplyRMSPropKernel_body "var" "ms" "mom" "grad"
              (coeff mem0 "rho" 0) (coeff mem0 "epsilon" 0) (coeff mem0 "lr" 0)
              (coeff mem0 "momentum" 0))
  | CenteredRMSProp =>
      Some (ApplyCenteredRMSPropKernel_body "var" "mg" "ms" "mom" "grad"
              (coeff mem0 "rho" 0) (coeff mem0 "epsilon" 0) (coeff mem0 "lr" 0)
              (coeff mem0 "momentum" 0))
  | _ => None
  end.

(** What the kernel of a family makes of element [i] of its arrays. *)
Definition kernel_table (f : family) (mem : Mem T) : elementwise :=
  match f with
  | Adagrad update_slots => adagrad_table impl_rsqrt update_slots mem
  | AdagradV2 update_slots => adagradv2_table impl_sqrt update_slots mem
  | Adadelta => adadelta_table adadelta_update_kernel mem
  | RMSProp => rmsprop_table rmsprop_mom_kernel mem
  | CenteredRMSProp => centered_table centered_mom_kernel mem
  | _ => fun _ => None
  end.

End threads.

Section where_updates.
Context {T : Type} `{Scalar T}.

(** The elements chosen by [p] replaced by [f]. *)
Definition upd_where (p : nat → bool) (f : nat → T) (l : list T) : list T :=
  imap (fun i old => if p i then f i else old) l.

(** Array [k] has the elements chosen by [P k] replaced. *)
Definition pointwise_where (P : string → nat → bool) (F : elementwise)
    (mem : Mem T) : Mem T :=
  map_imap (fun k l =>
    Some (match F k with Some f => upd_where (P k) f l | None => l end)) mem.

(** [P] with element [n] of array [x] chosen as well. *)
Definition mark (P : string → nat → bool) (x : string) (n : nat)
    : string → nat → bool :=
  fun k i => if decide (k = x) then (if decide (i = n) then true else P k i) else P k i.

(** The elements a list of threads has handled. *)
Definition handled (done : list nat) : string → nat → bool :=
  fun _ i => bool_decide (i ∈ done).

End where_updates.

(** * Proofs *)

(** ** Reasoning about device memory *)

Section memory_facts.
Context {T : Type} `{Scalar T}.
Implicit Types (mem : Mem T) (x y : string) (l : list T) (f : nat → T).

Lemma flat_insert mem x y l :
  flat (<[x := l]> mem) y = if decide (x = y) then l else flat mem y.
Proof.
  unfold flat. rewrite lookup_insert. by case_decide.
Qed.

Lemma has_array_flat mem x n :
  has_array mem x n → mem !! x = Some (flat mem x) ∧ length (flat mem x) = n.
Proof. intros (l & Hl & Hn). unfold flat. by rewrite Hl. Qed.

Lemma length_upd_prefix n f l : length (upd_prefix n f l) = length l.
Proof. apply length_imap. Qed.

Lemma upd_prefix_lookup n f l i :
  upd_prefix n f l !! i = (fun old => if decide (i < n) then f i else old) <$> l !! i.
Proof. apply list_lookup_imap. Qed.

Lemma upd_prefix_total n f l i :
  i < length l →
  upd_prefix n f l !!! i = if decide (i < n) then f i else l !!! i.
Proof.
  intros Hi. apply list_lookup_total_correct.
  rewrite upd_prefix_lookup, (list_lookup_lookup_total_lt l i Hi). done.
Qed.

Lemma upd_prefix_0 f l : upd_prefix 0 f l = l.
Proof.
  apply list_eq. intros i. rewrite upd_prefix_lookup.
  by destruct (l !! i).
Qed.

Lemma upd_prefix_S n f l :
  <[n := f n]> (upd_prefix n f l) = upd_prefix (S n) f l.
Proof.
  apply list_eq. intros i. destruct (decide (n = i)) as [->|Hne].
  - destruct (decide (i < length l)) as [Hi|Hi].
    + rewrite list_lookup_insert_eq by (by rewrite length_upd_prefix).
      rewrite upd_prefix_lookup, (list_lookup_lookup_total_lt l i Hi). simpl.
      case_decide; [done|lia].
    + rewrite list_insert_ge by (rewrite length_upd_prefix; lia).
      rewrite !upd_prefix_lookup. by rewrite (lookup_ge_None_2 l i) by lia.
  - rewrite list_lookup_insert_ne by done. rewrite !upd_prefix_lookup.
    destruct (l !! i); simpl; [|done]. repeat case_decide; (done || lia).
Qed.

Lemma upd_prefix_all n f l :
  length l ≤ n → upd_prefix n f l = imap (fun i _ => f i) l.
Proof.
  intros Hn. apply imap_ext. intros i a Hi. apply lookup_lt_Some in Hi.
  case_decide; [done|lia].
Qed.

(** The loop, one index at a time. *)
Lemma GPU_1D_KERNEL_LOOP_S n (body : nat → Mem T → Mem T) mem :
  GPU_1D_KERNEL_LOOP (S n) body mem = body n (GPU_1D_KERNEL_LOOP n body mem).
Proof.
  unfold GPU_1D_KERNEL_LOOP. by rewrite seq_S, foldl_snoc.
Qed.

(** A loop whose memory after [n] indices is [I n]. *)
Lemma GPU_1D_KERNEL_LOOP_inv (I : nat → Mem T) N body mem :
  I 0 = mem →
  (∀ n, n < N → body n (I n) = I (S n)) →
  GPU_1D_KERNEL_LOOP N body mem = I N.
Proof.
  intros H0 Hstep. induction N as [|N IH].
  - done.
  - rewrite GPU_1D_KERNEL_LOOP_S, IH by (intros; apply Hstep; lia).
    apply Hstep. lia.
Qed.

End memory_facts.

(** ** Elementwise updates *)

Section pointwise_facts.
Context {T : Type} `{Scalar T}.
Implicit Types (mem : Mem T) (x k : string) (P : string → nat).

Lemma lookup_pointwise_upto P F mem k :
  pointwise_upto P F mem !! k =
  (fun l => match F k with Some f => upd_prefix (P k) f l | None => l end) <$> mem !! k.
Proof.
  unfold pointwise_upto. rewrite map_lookup_imap. by destruct (mem !! k).
Qed.

Lemma lookup_pointwise F mem k :
  pointwise F mem !! k =
  (fun l => match F k with Some f => imap (fun i _ => f i) l | None => l end) <$> mem !! k.
Proof.
  unfold pointwise. rewrite map_lookup_imap. by destruct (mem !! k).
Qed.

Lemma flat_pointwise_upto P F mem k :
  flat (pointwise_upto P F mem) k =
  match F k with Some f => upd_prefix (P k) f (flat mem k) | None => flat mem k end.
Proof.
  unfold flat. rewrite lookup_pointwise_upto.
  destruct (mem !! k); simpl; [done|]. by destruct (F k).
Qed.

Lemma dimension_pointwise_upto P F mem k :
  dimension (pointwise_upto P F mem) k = dimension mem k.
Proof.
  unfold dimension. rewrite flat_pointwise_upto.
  destruct (F k); [apply length_upd_prefix|done].
Qed.

Lemma coeff_pointwise_upto_new P F mem k f i :
  F k = Some f → i < P k → i < dimension mem k →
  coeff (pointwise_upto P F mem) k i = f i.
Proof.
  intros HF HP Hi. unfold coeff. rewrite flat_pointwise_upto, HF.
  rewrite upd_prefix_total by done. by case_decide.
Qed.

Lemma coeff_pointwise_upto_old P F mem k i :
  F k = None ∨ P k ≤ i →
  coeff (pointwise_upto P F mem) k i = coeff mem k i.
Proof.
  intros HF. unfold coeff. rewrite flat_pointwise_upto.
  destruct (F k) as [f|] eqn:Hk; [|done].
  destruct HF as [?|HP]; [done|].
  destruct (decide (i < length (flat mem k))) as [Hi|Hi].
  - rewrite upd_prefix_total by done. case_decide; [lia|done].
  - rewrite !list_lookup_total_alt, upd_prefix_lookup.
    by rewrite (lookup_ge_None_2 (flat mem k) i) by lia.
Qed.

Lemma pointwise_upto_0 F mem : pointwise_upto (fun _ => 0) F mem = mem.
Proof.
  apply map_eq. intros k. rewrite lookup_pointwise_upto.
  destruct (mem !! k); simpl; [|done]. destruct (F k); [|done].
  by rewrite upd_prefix_0.
Qed.

Lemma pointwise_upto_ext P P' F mem :
  (∀ k, is_Some (F k) → P k = P' k) →
  pointwise_upto P F mem = pointwise_upto P' F mem.
Proof.
  intros HP. apply map_eq. intros k. rewrite !lookup_pointwise_upto.
  destruct (mem !! k); simpl; [|done]. destruct (F k) eqn:Hk; [|done].
  by rewrite (HP k) by (by rewrite Hk).
Qed.

Lemma pointwise_upto_all P F mem :
  (∀ k, is_Some (F k) → dimension mem k ≤ P k) →
  pointwise_upto P F mem = pointwise F mem.
Proof.
  intros HP. apply map_eq. intros k.
  rewrite lookup_pointwise_upto, lookup_pointwise.
  destruct (mem !! k) as [l|] eqn:Hl; simpl; [|done].
  destruct (F k) eqn:Hk; [|done]. f_equal. apply upd_prefix_all.
  specialize (HP k). rewrite Hk in HP. unfold dimension, flat in HP.
  rewrite Hl in HP. apply HP. done.
Qed.

(** [x[n] = f n] moves array [x] one element on. *)
Lemma store_pointwise_upto P F mem x f n a :
  F x = Some f → P x = n → is_Some (mem !! x) → a = f n →
  store x n a (pointwise_upto P F mem) = pointwise_upto (override P x (S n)) F mem.
Proof.
  intros HF HP [l Hl] ->. unfold store. apply map_eq. intros k.
  rewrite lookup_insert, flat_pointwise_upto, HF, HP, !lookup_pointwise_upto.
  unfold override. case_decide as Hk.
  - subst k. rewrite decide_True by done. rewrite HF, upd_prefix_S.
    unfold flat. by rewrite Hl.
  - rewrite decide_False by done. done.
Qed.

(** [x.device(d) = e] moves array [x] from untouched to done. *)
Lemma assign_pointwise_upto P F mem x f e :
  F x = Some f → P x = 0 → is_Some (mem !! x) →
  (∀ i, i < dimension mem x → e i = f i) →
  assign x e (pointwise_upto P F mem) =
  pointwise_upto (override P x (dimension mem x)) F mem.
Proof.
  intros HF HP [l Hl] He. unfold assign. apply map_eq. intros k.
  rewrite lookup_insert, flat_pointwise_upto, HF, HP, !lookup_pointwise_upto.
  unfold override. case_decide as Hk.
  - subst k. rewrite decide_True by done. rewrite HF, upd_prefix_0.
    assert (flat mem x = l) as Hflat by (unfold flat; by rewrite Hl).
    rewrite Hl, Hflat. simpl. f_equal.
    rewrite upd_prefix_all by (unfold dimension; by rewrite Hflat).
    apply imap_ext. intros i a Hi. apply He.
    unfold dimension. rewrite Hflat. by apply lookup_lt_Some in Hi.
  - rewrite decide_False by done. done.
Qed.

(** What [pointwise] leaves alone and what it writes. *)
Lemma pointwise_frame F mem k : F k = None → pointwise F mem !! k = mem !! k.
Proof.
  intros Hk. rewrite lookup_pointwise, Hk. by destruct (mem !! k).
Qed.

Lemma coeff_pointwise F mem k f i :
  F k = Some f → i < dimension mem k → coeff (pointwise F mem) k i = f i.
Proof.
  intros Hk Hi. unfold coeff, flat. rewrite lookup_pointwise, Hk.
  unfold dimension, flat in Hi. destruct (mem !! k) as [l|]; simpl in *; [|lia].
  apply list_lookup_total_correct. rewrite list_lookup_imap.
  by rewrite (list_lookup_lookup_total_lt l i Hi).
Qed.

End pointwise_facts.

Section pointwise_start_facts.
Context {T : Type} `{Scalar T}.

Lemma assign_pointwise_start (F : elementwise) (mem : Mem T) x f e :
  F x = Some f → is_Some (mem !! x) →
  (∀ i, i < dimension mem x → e i = f i) →
  assign x e mem = pointwise_upto (override (fun _ => 0) x (dimension mem x)) F mem.
Proof.
  intros HF Hx He.
  rewrite <- (assign_pointwise_upto (fun _ => 0) F mem x f e) by done.
  by rewrite pointwise_upto_0.
Qed.

Lemma broadcast_eq (e : nat → T) i : broadcast e i = e 0.
Proof. unfold broadcast. by rewrite Nat.mod_1_r. Qed.

End pointwise_start_facts.

(** ** Each path, element by element *)

(** Proof steps shared by the functors and kernels below. *)
Ltac solve_old :=
  first [left; reflexivity
        | right; unfold override, dimension in *; repeat case_decide; try done; lia].
Ltac solve_new :=
  first [reflexivity
        | unfold override, dimension in *; repeat case_decide; try done; lia].
Ltac read_old :=
  repeat match goal with
  | |- context [coeff (pointwise_upto ?P ?F ?m) ?k ?i] =>
      rewrite (coeff_pointwise_upto_old P F m k i) by solve_old
  end.
Ltac read_new :=
  repeat match goal with
  | |- context [coeff (pointwise_upto ?P ?F ?m) ?k ?i] =>
      erewrite (coeff_pointwise_upto_new P F m k _ i); [ | reflexivity | solve_new | solve_new ]
  end.
Ltac read_mem := read_old; read_new.
Ltac write_elem :=
  erewrite store_pointwise_upto; [ | reflexivity | reflexivity | eauto | reflexivity ].
Ltac written_only :=
  intros k; unfold override, dimension;
  cbv beta delta [adagrad_table adagradv2_table adadelta_table rmsprop_table
                  centered_table adam_table amsgrad_table adamax_mv_table
                  adamax_table];
  repeat case_decide; subst; try done; try (by intros []); try (intros _; lia).
Ltac assign_first F x :=
  erewrite (assign_pointwise_start F _ x);
  [ | reflexivity | eauto | intros ? ?; rewrite ?broadcast_eq ].
Ltac assign_next x :=
  erewrite (assign_pointwise_upto _ _ _ x);
  [ | reflexivity | reflexivity | eauto | intros ? ?; rewrite ?broadcast_eq ].

Section results_facts.
Context {T : Type} `{Scalar T} `{Impl T}.
Local Open Scope sc_scope.
Implicit Types (mem : Mem T).

Lemma ApplyAdagradKernel_result N update_slots mem :
  has_array mem "var" N → has_array mem "accum" N →
  ApplyAdagradKernel {| virtual_thread_count := N |} "var" "accum" "lr" "grad"
    update_slots mem =
  pointwise (adagrad_table impl_rsqrt update_slots mem) mem.
Proof.
  intros [Hv Hvn]%has_array_flat [Ha Han]%has_array_flat.
  rewrite <- (pointwise_upto_all (fun _ => N)) by written_only.
  unfold ApplyAdagradKernel. simpl.
  apply (GPU_1D_KERNEL_LOOP_inv (fun n =>
    pointwise_upto (fun _ => n) (adagrad_table impl_rsqrt update_slots mem) mem)).
  { apply pointwise_upto_0. }
  intros n Hn. destruct update_slots.
  - read_old. write_elem. read_mem. write_elem.
    apply pointwise_upto_ext. written_only.
  - read_old. write_elem.
    apply pointwise_upto_ext. written_only.
Qed.

Lemma ApplyAdagrad_CUDA_result N update_slots mem :
  has_array mem "var" N → has_array mem "accum" N →
  ApplyAdagrad CUDA update_slots mem =
  Done (pointwise (adagrad_table sc_rsqrt update_slots mem) mem).
Proof.
  intros [Hv Hvn]%has_array_flat [Ha Han]%has_array_flat.
  rewrite <- (pointwise_upto_all (fun _ => N)) by written_only.
  unfold ApplyAdagrad. f_equal. destruct update_slots.
  - assign_first (adagrad_table sc_rsqrt true mem) "accum"; [|reflexivity].
    assign_next "var".
    2:{ read_mem. reflexivity. }
    apply pointwise_upto_ext. written_only.
  - assign_first (adagrad_table sc_rsqrt false mem) "var"; [|reflexivity].
    apply pointwise_upto_ext. written_only.
Qed.

Lemma ApplyAdagradV2Kernel_result N update_slots mem :
  has_array mem "var" N → has_array mem "accum" N →
  ApplyAdagradV2Kernel {| virtual_thread_count := N |}
    "var" "accum" "lr" "epsilon" "grad" update_slots mem =
  pointwise (adagradv2_table impl_sqrt update_slots mem) mem.
Proof.
  intros [Hv Hvn]%has_array_flat [Ha Han]%has_array_flat.
  rewrite <- (pointwise_upto_all (fun _ => N)) by written_only.
  unfold ApplyAdagradV2Kernel. simpl.
  apply (GPU_1D_KERNEL_LOOP_inv (fun n =>
    pointwise_upto (fun _ => n) (adagradv2_table impl_sqrt update_slots mem) mem)).
  { apply pointwise_upto_0. }
  intros n Hn. destruct update_slots.
  - read_old. write_elem. read_mem. write_elem.
    apply pointwise_upto_ext. written_only.
  - read_old. write_elem.
    apply pointwise_upto_ext. written_only.
Qed.

Lemma ApplyAdagradV2_CUDA_result N update_slots mem :
  has_array mem "var" N → has_array mem "accum" N →
  ApplyAdagradV2 CUDA update_slots mem =
  Done (pointwise (adagradv2_table sc_sqrt update_slots mem) mem).
Proof.
  intros [Hv Hvn]%has_array_flat [Ha Han]%has_array_flat.
  rewrite <- (pointwise_upto_all (fun _ => N)) by written_only.
  unfold ApplyAdagradV2. f_equal. destruct update_slots.
  - assign_first (adagradv2_table sc_sqrt true mem) "accum"; [|reflexivity].
    assign_next "var".
    2:{ read_mem. reflexivity. }
    apply pointwise_upto_ext. written_only.
  - assign_first (adagradv2_table sc_sqrt false mem) "var"; [|reflexivity].
    apply pointwise_upto_ext. written_only.
Qed.

Lemma ApplyAdadeltaKernel_result N mem :
  has_array mem "var" N → has_array mem "accum" N → has_array mem "accum_update" N →
  ApplyAdadeltaKernel {| virtual_thread_count := N |}
    "var" "accum" "accum_update" "lr" "rho" "epsilon" "grad" mem =
  pointwise (adadelta_table adadelta_update_kernel mem) mem.
Proof.
  intros [Hv Hvn]%has_array_flat [Ha Han]%has_array_flat [Hu Hun]%has_array_flat.
  rewrite <- (pointwise_upto_all (fun _ => N)) by written_only.
  unfold ApplyAdadeltaKernel. simpl.
  apply (GPU_1D_KERNEL_LOOP_inv (fun n =>
    pointwise_upto (fun _ => n) (adadelta_table adadelta_update_kernel mem) mem)).
  { apply pointwise_upto_0. }
  intros n Hn.
  read_old. write_elem. read_mem. write_elem.
  read_mem. write_elem.
  apply pointwise_upto_ext. written_only.
Qed.

Lemma ApplyAdadelta_CUDA_result N mem :
  has_array mem "var" N → has_array mem "accum" N → has_array mem "accum_update" N →
  ApplyAdadelta CUDA mem =
  Done (pointwise (adadelta_table adadelta_update_eigen mem) mem).
Proof.
  intros [Hv Hvn]%has_array_flat [Ha Han]%has_array_flat [Hu Hun]%has_array_flat.
  rewrite <- (pointwise_upto_all (fun _ => N)) by written_only.
  unfold ApplyAdadelta. f_equal.
  assign_first (adadelta_table adadelta_update_eigen mem) "accum"; [|reflexivity].
  assign_next "var".
  2:{ read_mem. reflexivity. }
  assign_next "accum_update".
  2:{ read_mem. reflexivity. }
  apply pointwise_upto_ext. written_only.
Qed.

Lemma ApplyRMSPropKernel_result N mem :
  has_array mem "var" N → has_array mem "ms" N → has_array mem "mom" N →
  ApplyRMSPropKernel {| virtual_thread_count := N |}
    "var" "ms" "mom" "lr" "rho" "momentum" "epsilon" "grad" mem =
  pointwise (rmsprop_table rmsprop_mom_kernel mem) mem.
Proof.
  intros [Hv Hvn]%has_array_flat [Hs Hsn]%has_array_flat [Hm Hmn]%has_array_flat.
  rewrite <- (pointwise_upto_all (fun _ => N)) by written_only.
  unfold ApplyRMSPropKernel. simpl.
  apply (GPU_1D_KERNEL_LOOP_inv (fun n =>
    pointwise_upto (fun _ => n) (rmsprop_table rmsprop_mom_kernel mem) mem)).
  { apply pointwise_upto_0. }
  intros n Hn.
  read_mem. write_elem. read_mem. write_elem. read_mem. write_elem.
  apply pointwise_upto_ext. written_only.
Qed.

Lemma ApplyRMSProp_CUDA_result N mem :
  has_array mem "var" N → has_array mem "ms" N → has_array mem "mom" N →
  ApplyRMSProp CUDA mem = Done (pointwise (rmsprop_table rmsprop_mom_eigen mem) mem).
Proof.
  intros [Hv Hvn]%has_array_flat [Hs Hsn]%has_array_flat [Hm Hmn]%has_array_flat.
  rewrite <- (pointwise_upto_all (fun _ => N)) by written_only.
  unfold ApplyRMSProp, one_minus. f_equal.
  assign_first (rmsprop_table rmsprop_mom_eigen mem) "ms"; [|reflexivity].
  assign_next "mom".
  2:{ read_mem. reflexivity. }
  assign_next "var".
  2:{ read_mem. reflexivity. }
  apply pointwise_upto_ext. written_only.
Qed.

Lemma ApplyCenteredRMSPropKernel_result N mem :
  has_array mem "var" N → has_array mem "mg" N →
  has_array mem "ms" N → has_array mem "mom" N →
  ApplyCenteredRMSPropKernel {| virtual_thread_count := N |}
    "var" "mg" "ms" "mom" "lr" "rho" "momentum" "epsilon" "grad" mem =
  pointwise (centered_table centered_mom_kernel mem) mem.
Proof.
  intros [Hv Hvn]%has_array_flat [Hg Hgn]%has_array_flat
         [Hs Hsn]%has_array_flat [Hm Hmn]%has_array_flat.
  rewrite <- (pointwise_upto_all (fun _ => N)) by written_only.
  unfold ApplyCenteredRMSPropKernel. simpl.
  apply (GPU_1D_KERNEL_LOOP_inv (fun n =>
    pointwise_upto (fun _ => n) (centered_table centered_mom_kernel mem) mem)).
  { apply pointwise_upto_0. }
  intros n Hn.
  read_mem. write_elem. read_mem. write_elem.
  read_mem. write_elem. read_mem. write_elem.
  apply pointwise_upto_ext. written_only.
Qed.

Lemma ApplyCenteredRMSProp_CUDA_result N mem :
  has_array mem "var" N → has_array mem "mg" N →
  has_array mem "ms" N → has_array mem "mom" N →
  ApplyCenteredRMSProp CUDA mem =
  Done (pointwise (centered_table centered_mom_eigen mem) mem).
Proof.
  intros [Hv Hvn]%has_array_flat [Hg Hgn]%has_array_flat
         [Hs Hsn]%has_array_flat [Hm Hmn]%has_array_flat.
  rewrite <- (pointwise_upto_all (fun _ => N)) by written_only.
  unfold ApplyCenteredRMSProp, one_minus. f_equal.
  assign_first (centered_table centered_mom_eigen mem) "ms"; [|reflexivity].
  assign_next "mg".
  2:{ read_mem. reflexivity. }
  assign_next "mom".
  2:{ read_mem. reflexivity. }
  assign_next "var".
  2:{ read_mem. reflexivity. }
  apply pointwise_upto_ext. written_only.
Qed.

Lemma ApplyAdam_result N use_nesterov mem :
  has_array mem "var" N → has_array mem "m" N → has_array mem "v" N →
  ApplyAdam use_nesterov mem = pointwise (adam_table use_nesterov mem) mem.
Proof.
  intros [Hv Hvn]%has_array_flat [Hm Hmn]%has_array_flat [Hw Hwn]%has_array_flat.
  rewrite <- (pointwise_upto_all (fun _ => N)) by written_only.
  unfold ApplyAdam, adam_alpha, one_minus.
  assign_first (adam_table use_nesterov mem) "m"; [|reflexivity].
  destruct use_nesterov.
  - assign_next "v".
    2:{ read_mem. reflexivity. }
    assign_next "var".
    2:{ read_mem. reflexivity. }
    apply pointwise_upto_ext. written_only.
  - assign_next "v".
    2:{ read_mem. reflexivity. }
    assign_next "var".
    2:{ read_mem. reflexivity. }
    apply pointwise_upto_ext. written_only.
Qed.

End results_facts.

Section raw_assign_facts.
Context {T : Type} `{Scalar T}.
Implicit Types (mem : Mem T).

(** One coefficient read outside its buffer makes the statement
    undefined. *)
Lemma assign_raw_Undefined mem x (e : nat → option T) i :
  i < dimension mem x → e i = None → assign_raw x e mem = Undefined.
Proof.
  intros Hi He. unfold assign_raw.
  rewrite (mapM_None_2 e (seq 0 (length (flat mem x)))); [done|].
  apply Exists_exists. exists i. split; [|done].
  apply elem_of_seq. unfold dimension in Hi. lia.
Qed.

(** With every coefficient inside its buffer it is an ordinary
    assignment. *)
Lemma assign_raw_Done mem x (e : nat → option T) (f : nat → T) :
  (∀ i, i < dimension mem x → e i = Some (f i)) →
  assign_raw x e mem = Done (assign x f mem).
Proof.
  intros He. unfold assign_raw, assign.
  rewrite (mapM_Some_2 e _ (imap (fun i _ => f i) (flat mem x))); [done|].
  apply Forall2_same_length_lookup_2.
  { by rewrite length_seq, length_imap. }
  intros i j y Hj Hy. apply lookup_seq in Hj as [-> Hi]. simpl.
  rewrite list_lookup_imap in Hy.
  destruct (flat mem x !! i); simplify_eq/=. by apply He.
Qed.

End raw_assign_facts.

Section real_results_facts.
Context {T : Type} `{RealScalar T}.
Local Open Scope sc_scope.
Implicit Types (mem : Mem T).

Lemma ApplyAdamWithAmsgrad_result N mem :
  has_array mem "var" N → has_array mem "m" N →
  has_array mem "v" N → has_array mem "vhat" N →
  ApplyAdamWithAmsgrad mem = pointwise (amsgrad_table mem) mem.
Proof.
  intros [Hv Hvn]%has_array_flat [Hm Hmn]%has_array_flat
         [Hw Hwn]%has_array_flat [Hh Hhn]%has_array_flat.
  rewrite <- (pointwise_upto_all (fun _ => N)) by written_only.
  unfold ApplyAdamWithAmsgrad, adam_alpha, one_minus.
  assign_first (amsgrad_table mem) "m"; [|reflexivity].
  assign_next "v".
  2:{ read_mem. reflexivity. }
  assign_next "vhat".
  2:{ read_mem. reflexivity. }
  assign_next "var".
  2:{ read_mem. reflexivity. }
  apply pointwise_upto_ext. written_only.
Qed.

(** A read of [lr] or [epsilon] past the end of its buffer. *)
Lemma ApplyAdaMax_Undefined N mem i :
  has_array mem "var" N → has_array mem "m" N → has_array mem "v" N →
  i < N → dimension mem "lr" ≤ i ∨ dimension mem "epsilon" ≤ i →
  ApplyAdaMax mem = Undefined.
Proof.
  intros [Hv Hvn]%has_array_flat [Hm Hmn]%has_array_flat [Hw Hwn]%has_array_flat Hi Hs.
  unfold ApplyAdaMax, one_minus.
  assign_first (adamax_mv_table mem) "m"; [|reflexivity].
  assign_next "v".
  2:{ read_mem. reflexivity. }
  apply (assign_raw_Undefined _ _ _ i).
  { rewrite dimension_pointwise_upto. unfold dimension. lia. }
  unfold raw. rewrite !flat_pointwise_upto. simpl.
  unfold dimension in Hs. destruct Hs as [Hs|Hs].
  - by rewrite (lookup_ge_None_2 (flat mem "lr") i).
  - rewrite (lookup_ge_None_2 (flat mem "epsilon") i) by done.
    by destruct (flat mem "lr" !! i).
Qed.

(** With [N] readable elements behind both pointers. *)
Lemma ApplyAdaMax_result N mem :
  has_array mem "var" N → has_array mem "m" N → has_array mem "v" N →
  N ≤ dimension mem "lr" → N ≤ dimension mem "epsilon" →
  ApplyAdaMax mem = Done (pointwise (adamax_table mem) mem).
Proof.
  intros [Hv Hvn]%has_array_flat [Hm Hmn]%has_array_flat [Hw Hwn]%has_array_flat Hl He.
  rewrite <- (pointwise_upto_all (fun _ => N)) by written_only.
  unfold ApplyAdaMax, one_minus.
  assign_first (adamax_table mem) "m"; [|reflexivity].
  assign_next "v".
  2:{ read_mem. reflexivity. }
  erewrite assign_raw_Done.
  2:{ intros i Hi. rewrite dimension_pointwise_upto in Hi. unfold raw.
      rewrite !flat_pointwise_upto. simpl.
      unfold dimension in *.
      rewrite (list_lookup_lookup_total_lt (flat mem "lr") i) by lia.
      rewrite (list_lookup_lookup_total_lt (flat mem "epsilon") i) by lia.
      simpl. rewrite broadcast_eq. reflexivity. }
  f_equal. assign_next "var".
  2:{ read_mem. reflexivity. }
  apply pointwise_upto_ext. written_only.
Qed.

End real_results_facts.

(** ** What a call leaves untouched *)

Section frame_facts.
Context {T : Type} `{RealScalar T} `{Exp T} `{Impl T}.
Implicit Types (mem : Mem T) (k x : string).

Lemma lookup_assign_ne mem x e k : x ≠ k → assign x e mem !! k = mem !! k.
Proof. intros. unfold assign. by rewrite lookup_insert_ne. Qed.

Lemma lookup_store_ne mem x i a k : x ≠ k → store x i a mem !! k = mem !! k.
Proof. intros. unfold store. by rewrite lookup_insert_ne. Qed.

Lemma lookup_assign_raw_ne mem mem' x e k :
  assign_raw x e mem = Done mem' → x ≠ k → mem' !! k = mem !! k.
Proof.
  unfold assign_raw. destruct (mapM _ _); [|done].
  intros [= <-] ?. by rewrite lookup_insert_ne.
Qed.

Lemma lookup_GPU_1D_KERNEL_LOOP n (body : nat → Mem T → Mem T) mem k :
  (∀ i m, body i m !! k = m !! k) →
  GPU_1D_KERNEL_LOOP n body mem !! k = mem !! k.
Proof.
  intros Hbody. induction n as [|n IH]; [done|].
  by rewrite GPU_1D_KERNEL_LOOP_S, Hbody.
Qed.

Lemma launch_Done (data_dim : Z) kernel mem mem' :
  launch data_dim kernel mem = Done mem' →
  (0 < data_dim)%Z ∧
  mem' = kernel {| virtual_thread_count := Z.to_nat data_dim |} mem.
Proof.
  unfold launch, GetGpuLaunchConfig. destruct (Z.ltb_spec 0 data_dim); [|done].
  intros [= <-]. split; [lia|done].
Qed.

(** A count that fits [int32] is not changed by the narrowing. *)
Lemma int32_small (z : Z) : (0 ≤ z < 2 ^ 31)%Z → int32 z = z.
Proof.
  intros Hz. unfold int32. rewrite Z.mod_small by lia. lia.
Qed.

(** The narrowing never makes a count larger. *)
Lemma int32_le (z : Z) : (0 ≤ z)%Z → (int32 z ≤ z)%Z.
Proof.
  intros Hz. unfold int32.
  pose proof (Z.div_mod (z + 2147483648) 4294967296 ltac:(lia)).
  pose proof (Z.div_pos (z + 2147483648) 4294967296 ltac:(lia) ltac:(lia)).
  lia.
Qed.

(** A count of [2^32 + j] is narrowed to [j]. *)
Lemma int32_wraps (j : Z) : (0 ≤ j < 2 ^ 31)%Z → int32 (2 ^ 32 + j) = j.
Proof.
  intros Hj. unfold int32.
  replace (2 ^ 32 + j + 2147483648)%Z
    with (j + 2147483648 + 1 * 4294967296)%Z by lia.
  rewrite Z_mod_plus_full, Z.mod_small by lia. lia.
Qed.

(** With [0 < N < 2^31] elements the launch goes through, one virtual
    thread per element. *)
Lemma launch_kernel (N : nat) (kernel : GpuLaunchConfig → Mem T → Mem T) mem :
  has_array mem "grad" N → (0 < Z.of_nat N < 2 ^ 31)%Z →
  launch (int32 (Z.of_nat (dimension mem "grad"))) kernel mem =
  Done (kernel {| virtual_thread_count := N |} mem).
Proof.
  intros [_ Hg]%has_array_flat HN. unfold dimension. rewrite Hg.
  rewrite int32_small by lia. unfold launch, GetGpuLaunchConfig.
  destruct (Z.ltb_spec 0 (Z.of_nat N)); [|lia]. by rewrite Nat2Z.id.
Qed.

Lemma call_frame b f mem mem' k :
  call b f mem = Done mem' → k ∉ written f → mem' !! k = mem !! k.
Proof.
  intros Hcall Hk.
  assert (∀ x, x ∈ written f → x ≠ k) as Hne by (intros x Hx ->; done).
  destruct f; simpl in Hcall, Hne;
    repeat match goal with
    | b : backend |- _ => destruct b
    | u : bool |- _ => destruct u
    end;
    simpl in Hcall;
    try (apply launch_Done in Hcall as [_ ->]);
    try (injection Hcall as <-);
    try (eapply lookup_assign_raw_ne in Hcall;
         [rewrite Hcall|apply Hne; set_solver]);
    cbv [ApplyGradientDescent ApplyMomentum ApplyKerasMomentum ApplyAdam
         ApplyAdamWithAmsgrad ApplyAddSign ApplyPowerSign
         ApplyAdagradKernel ApplyAdagradV2Kernel ApplyAdadeltaKernel
         ApplyRMSPropKernel ApplyCenteredRMSPropKernel];
    try (apply lookup_GPU_1D_KERNEL_LOOP; intros i m);
    repeat first
      [ rewrite lookup_assign_ne by (apply Hne; set_solver)
      | rewrite lookup_store_ne by (apply Hne; set_solver) ];
    done.
Qed.

Lemma read_only_not_written f k : k ∈ read_only f → k ∉ written f.
Proof.
  revert k. apply Forall_forall.
  destruct f; apply (bool_decide_unpack _); vm_compute; exact I.
Qed.

End frame_facts.

Section paths_facts.
Context {T : Type} `{RealScalar T} `{Exp T} `{Impl T}.
Implicit Types (mem : Mem T).

Lemma call_ROCm_kernel f kernel mem :
  kernel_of f = Some kernel →
  call ROCm f mem =
  launch (int32 (Z.of_nat (dimension mem "grad"))) kernel mem.
Proof. destruct f; intros [= <-]; reflexivity. Qed.

Lemma call_no_kernel b f mem :
  kernel_of f = None → call b f mem = call CUDA f mem.
Proof. by destruct f, b. Qed.

Lemma assign_nil mem x (e : nat → T) : has_array mem x 0 → assign x e mem = mem.
Proof.
  intros [Hx Hn]%has_array_flat. unfold assign.
  apply nil_length_inv in Hn. rewrite Hn. simpl.
  apply insert_id. by rewrite <- Hn.
Qed.

Lemma assign_raw_nil mem x (e : nat → option T) :
  has_array mem x 0 → assign_raw x e mem = Done mem.
Proof.
  intros [Hx Hn]%has_array_flat. unfold assign_raw.
  apply nil_length_inv in Hn. rewrite Hn. simpl. f_equal.
  apply insert_id. by rewrite <- Hn.
Qed.

(** On empty arrays the Eigen expressions write nothing. *)
Lemma call_CUDA_empty f mem :
  well_formed f 0 mem → call CUDA f mem = Done mem.
Proof.
  unfold well_formed. intros Hwf.
  assert (∀ x, x ∈ written f → has_array mem x 0) as Hx
    by (by apply Forall_forall).
  destruct f; simpl in Hx |- *;
    repeat match goal with u : bool |- _ => destruct u end;
    cbv [ApplyGradientDescent ApplyAdagrad ApplyAdagradV2 ApplyAdadelta
         ApplyMomentum ApplyKerasMomentum ApplyAdam ApplyAdamWithAmsgrad
         ApplyAdaMax ApplyRMSProp ApplyCenteredRMSProp ApplyAddSign
         ApplyPowerSign];
    repeat (rewrite (assign_nil mem) by (apply Hx; set_solver));
    try (rewrite (assign_raw_nil mem) by (apply Hx; set_solver));
    done.
Qed.

End paths_facts.

(** Under exact arithmetic the conversions around the half primitives are
    the identity, and the [Eigen::half] specialisation is the generic
    template. *)
Lemma Half_Impl_exact :
  Half_Impl (H := R) (F := R) (fun x => x) (fun x => x) = Generic_Impl.
Proof. reflexivity. Qed.

(** ** Properties from the specification *)

Lemma ApplyAdagrad_result {T : Type} `{Scalar T} `{Impl T}
    (b : backend) (update_slots : bool) (N : nat) (mem : Mem T) :
  has_array mem "var" N → has_array mem "accum" N → has_array mem "grad" N →
  (b = ROCm → (0 < Z.of_nat N < 2 ^ 31)%Z) →
  ApplyAdagrad b update_slots mem =
  Done (pointwise (adagrad_table (path_rsqrt b) update_slots mem) mem).
Proof.
  intros Hv Ha Hg HN. destruct b.
  - by apply (ApplyAdagrad_CUDA_result N).
  - unfold ApplyAdagrad. cbv zeta. rewrite (launch_kernel N) by auto.
    f_equal. by apply (ApplyAdagradKernel_result N).
Qed.



(** C5. An Adam call computes, for every element,
    [m += (1-beta1)*(grad-m)] and [v += (1-beta2)*(grad*grad-v)], and with
    [alpha = lr*sqrt(1-beta2_power)/(1-beta1_power)] decrements [var] by
    [alpha*(m*beta1+(1-beta1)*grad)/(epsilon+sqrt(v))] under [use_nesterov]
    and by [alpha*m/(epsilon+sqrt(v))] otherwise, [m] and [v] being the new
    values. In the scenario of the specification this gives [m=[0.1]],
    [v=[0.001]] and [var] decremented by
    [alpha*0.1/(1e-8+sqrt(0.001))], [alpha = 0.001*sqrt(1-0.999)/(1-0.9)]. *)
Theorem adam_update :
  (∀ (T : Type) (HS : Scalar T) (use_nesterov : bool) (N : nat) (mem : Mem T),
     has_array mem "var" N → has_array mem "m" N → has_array mem "v" N →
     let mem' := ApplyAdam use_nesterov mem in
     let alpha :=
       (coeff mem "lr" 0 * sc_sqrt (sc_one - coeff mem "beta2_power" 0) /
        (sc_one - coeff mem "beta1_power" 0))%S in
     ∀ i, i < N →
       coeff mem' "m" i =
         (coeff mem "m" i +
          (sc_one - coeff mem "beta1" 0) * (coeff mem "grad" i - coeff mem "m" i))%S ∧
       coeff mem' "v" i =
         (coeff mem "v" i +
          (sc_one - coeff mem "beta2" 0) *
          (coeff mem "grad" i * coeff mem "grad" i - coeff mem "v" i))%S ∧
       coeff mem' "var" i =
         (if use_nesterov
          then coeff mem "var" i -
               alpha *
               (coeff mem' "m" i * coeff mem "beta1" 0 +
                (sc_one - coeff mem "beta1" 0) * coeff mem "grad" i) /
               (coeff mem "epsilon" 0 + sc_sqrt (coeff mem' "v" i))
          else coeff mem "var" i -
               alpha * coeff mem' "m" i /
               (coeff mem "epsilon" 0 + sc_sqrt (coeff mem' "v" i)))%S) ∧
  (∀ var0 : R,
     let mem' := ApplyAdam false (adam_scenario var0) in
     mem' !! "m" = Some [(1/10)%R] ∧
     mem' !! "v" = Some [(1/1000)%R] ∧
     mem' !! "var" =
       Some [(var0 -
              (1/1000 * sqrt (1 - 999/1000) / (1 - 9/10)) * (1/10) /
              (1/100000000 + sqrt (1/1000)))%R]).
Proof.
  split.
  - intros T HS use_nesterov N mem Hv Hm Hw mem' alpha i Hi. subst mem'.
    rewrite (ApplyAdam_result N) by done.
    apply has_array_flat in Hv as [_ Hv]. apply has_array_flat in Hm as [_ Hm].
    apply has_array_flat in Hw as [_ Hw].
    rewrite (coeff_pointwise _ _ "m" (adam_m mem))
      by (done || (unfold dimension; lia)).
    rewrite (coeff_pointwise _ _ "v" (adam_v mem))
      by (done || (unfold dimension; lia)).
    rewrite (coeff_pointwise _ _ "var" (adam_var use_nesterov mem))
      by (done || (unfold dimension; lia)).
    repeat split; reflexivity.
  - intros var0 mem'. subst mem'.
    rewrite (ApplyAdam_result 1) by (eexists; split; reflexivity).
    rewrite !lookup_pointwise.
    assert (adam_m (adam_scenario var0) 0 = (1/10)%R) as Hm.
    { change ((0 + (1 - 9/10) * (1 - 0))%R = (1/10)%R). lra. }
    assert (adam_v (adam_scenario var0) 0 = (1/1000)%R) as Hw.
    { change ((0 + (1 - 999/1000) * (1 * 1 - 0))%R = (1/1000)%R). lra. }
    split; [|split].
    + change (Some [adam_m (adam_scenario var0) 0] = Some [(1/10)%R]).
      by rewrite Hm.
    + change (Some [adam_v (adam_scenario var0) 0] = Some [(1/1000)%R]).
      by rewrite Hw.
    + change (Some [(var0 -
                     (1/1000 * sqrt (1 - 999/1000) / (1 - 9/10)) *
                     adam_m (adam_scenario var0) 0 /
                     (1/100000000 + sqrt (adam_v (adam_scenario var0) 0)))%R] = 
              Some [(var0 -
                     (1/1000 * sqrt (1 - 999/1000) / (1 - 9/10)) * (1/10) /
                     (1/100000000 + sqrt (1/1000)))%R]).
      by rewrite Hm, Hw.
Qed.

(** The theorem on the scenario's arrays. *)
Lemma adam_update_witness :
  has_array (adam_scenario 1) "var" 1 ∧ has_array (adam_scenario 1) "m" 1 ∧
  has_array (adam_scenario 1) "v" 1 ∧
  coeff (ApplyAdam true (adam_scenario 1)) "m" 0 =
    (coeff (adam_scenario 1) "m" 0 +
     (sc_one - coeff (adam_scenario 1) "beta1" 0) *
     (coeff (adam_scenario 1) "grad" 0 - coeff (adam_scenario 1) "m" 0))%S.
Proof.
  assert (has_array (adam_scenario 1) "var" 1) as Hv by (eexists; split; reflexivity).
  assert (has_array (adam_scenario 1) "m" 1) as Hm by (eexists; split; reflexivity).
  assert (has_array (adam_scenario 1) "v" 1) as Hw by (eexists; split; reflexivity).
  repeat (split; [assumption|]).
  exact (proj1 (proj1 adam_update R _ true 1 (adam_scenario 1) Hv Hm Hw 0
                  (Nat.lt_0_succ 0))).
Defined.

(** C10. [use_nesterov] does not reach [m] and [v]: from the same memory
    the two settings of the flag leave the same [m] and the same [v]. *)
Theorem adam_nesterov_m_v {T : Type} `{Scalar T} (mem : Mem T) :
  ApplyAdam true mem !! "m" = ApplyAdam false mem !! "m" ∧
  ApplyAdam true mem !! "v" = ApplyAdam false mem !! "v".
Proof.
  cbv beta iota zeta delta [ApplyAdam].
  split; (etrans; [by apply lookup_assign_ne|symmetry; by apply lookup_assign_ne]).
Qed.

(** C9. In any element arithmetic, an AdamWithAmsgrad call leaves in
    [v[i]] the value [v[i] + (1-beta2)*(grad[i]^2 - v[i])] computed from
    the memory of before the call, and in [vhat[i]] the larger of
    [vhat[i]] of before the call and that new [v[i]]. Over the reals
    [vhat[i]] is therefore not below its value before the call. *)
Theorem amsgrad_vhat_monotone :
  (∀ (T : Type) (HS : Scalar T) (HR : RealScalar T) (N : nat) (mem : Mem T),
     has_array mem "var" N → has_array mem "m" N →
     has_array mem "v" N → has_array mem "vhat" N →
     let mem' := ApplyAdamWithAmsgrad mem in
     ∀ i, i < N →
       coeff mem' "v" i =
         (coeff mem "v" i +
          (sc_one - coeff mem "beta2" 0) *
          (coeff mem "grad" i * coeff mem "grad" i - coeff mem "v" i))%S ∧
       coeff mem' "vhat" i = rs_max (coeff mem "vhat" i) (coeff mem' "v" i)) ∧
  (∀ (N : nat) (mem : Mem R),
     has_array mem "var" N → has_array mem "m" N →
     has_array mem "v" N → has_array mem "vhat" N →
     ∀ i, i < N →
       (coeff mem "vhat" i <= coeff (ApplyAdamWithAmsgrad mem) "vhat" i)%R).
Proof.
  split.
  - intros T HS HR N mem Hv Hm Hw Hh mem' i Hi. subst mem'.
    rewrite (ApplyAdamWithAmsgrad_result N) by done.
    apply has_array_flat in Hw as [_ Hw]. apply has_array_flat in Hh as [_ Hh].
    rewrite (coeff_pointwise _ _ "vhat" (amsgrad_vhat mem))
      by (done || (unfold dimension; lia)).
    rewrite (coeff_pointwise _ _ "v" (adam_v mem))
      by (done || (unfold dimension; lia)).
    split; reflexivity.
  - intros N mem Hv Hm Hw Hh i Hi.
    rewrite (ApplyAdamWithAmsgrad_result N) by done.
    apply has_array_flat in Hh as [_ Hh].
    rewrite (coeff_pointwise _ _ "vhat" (amsgrad_vhat mem))
      by (done || (unfold dimension; lia)).
    apply Rmax_l.
Qed.

(** The theorem on one element with [vhat = 2] above the new [v]. *)
Lemma amsgrad_vhat_monotone_witness :
  has_array amsgrad_example "var" 1 ∧ has_array amsgrad_example "m" 1 ∧
  has_array amsgrad_example "v" 1 ∧ has_array amsgrad_example "vhat" 1 ∧
  coeff (ApplyAdamWithAmsgrad amsgrad_example) "vhat" 0 =
    rs_max (coeff amsgrad_example "vhat" 0)
           (coeff (ApplyAdamWithAmsgrad amsgrad_example) "v" 0) ∧
  (coeff amsgrad_example "vhat" 0 <=
   coeff (ApplyAdamWithAmsgrad amsgrad_example) "vhat" 0)%R.
Proof.
  assert (has_array amsgrad_example "var" 1) as Hv by (eexists; split; reflexivity).
  assert (has_array amsgrad_example "m" 1) as Hm by (eexists; split; reflexivity).
  assert (has_array amsgrad_example "v" 1) as Hw by (eexists; split; reflexivity).
  assert (has_array amsgrad_example "vhat" 1) as Hh by (eexists; split; reflexivity).
  repeat (split; [assumption|]).
  split.
  - exact (proj2 (proj1 amsgrad_vhat_monotone R _ _ 1 amsgrad_example
                    Hv Hm Hw Hh 0 (Nat.lt_0_succ 0))).
  - exact (proj2 amsgrad_vhat_monotone 1 amsgrad_example Hv Hm Hw Hh 0
             (Nat.lt_0_succ 0)).
Defined.

(** C8. A call that returns has changed none of the buffers outside the
    parameter array and the state arrays of its family; in particular the
    gradient and every scalar hyperparameter are as before the call. *)
Theorem call_writes_only_state {T : Type} `{RealScalar T} `{Exp T} `{Impl T}
    (b : backend) (f : family) (mem mem' : Mem T) :
  call b f mem = Done mem' →
  (∀ k, k ∉ written f → mem' !! k = mem !! k) ∧
  (∀ k, k ∈ read_only f → mem' !! k = mem !! k).
Proof.
  intros Hcall. split.
  - intros k Hk. by apply (call_frame b f).
  - intros k Hk. apply (call_frame b f); [done|]. by apply read_only_not_written.
Qed.

Lemma call_writes_only_state_witness :
  call CUDA (Adam false) (adam_scenario 1) = Done (ApplyAdam false (adam_scenario 1)) ∧
  ApplyAdam false (adam_scenario 1) !! "grad" = adam_scenario 1 !! "grad".
Proof.
  assert (call CUDA (Adam false) (adam_scenario 1) =
          Done (ApplyAdam false (adam_scenario 1))) as Hcall by reflexivity.
  split; [exact Hcall|].
  apply (proj1 (call_writes_only_state CUDA (Adam false) _ _ Hcall)).
  apply (bool_decide_unpack _). vm_compute. exact I.
Defined.

(** C7, as stated, fails: a GradientDescent call with [N = 0] is carried
    out on either backend and returns. *)
Lemma empty_call_not_rejected :
  dimension empty_gradient_descent "grad" = 0 ∧
  ∀ b, call b GradientDescent empty_gradient_descent = Done empty_gradient_descent ∧
       ¬ rejected (call b GradientDescent empty_gradient_descent).
Proof.
  split; [reflexivity|]. intros b.
  assert (call b GradientDescent empty_gradient_descent = Done empty_gradient_descent)
    as Hcall.
  { rewrite (call_no_kernel b) by reflexivity. apply call_CUDA_empty.
    apply Forall_cons_2; [|apply Forall_nil_2]. eexists; split; reflexivity. }
  split; [exact Hcall|]. rewrite Hcall. simpl. tauto.
Qed.

(** C7, amended. With [N = 0] no element of any array is written. The
    functors that launch a kernel abort on ROCm, in the launch
    configuration and before the launch; every other call, and every call
    on CUDA, is carried out and returns with the memory as it was. *)
Theorem empty_call {T : Type} `{RealScalar T} `{Exp T} `{Impl T}
    (b : backend) (f : family) (mem : Mem T) :
  well_formed f 0 mem → dimension mem "grad" = 0 →
  call b f mem =
    match b, kernel_of f with
    | ROCm, Some _ => Fatal
    | _, _ => Done mem
    end.
Proof.
  intros Hwf Hg. destruct b.
  - by apply call_CUDA_empty.
  - destruct (kernel_of f) as [kernel|] eqn:Hk.
    + rewrite (call_ROCm_kernel f kernel) by done. by rewrite Hg.
    + rewrite (call_no_kernel ROCm) by done. by apply call_CUDA_empty.
Qed.

Lemma empty_call_witness :
  well_formed (Adagrad true) 0 empty_adagrad ∧ dimension empty_adagrad "grad" = 0 ∧
  call ROCm (Adagrad true) empty_adagrad = Fatal ∧
  call CUDA (Adagrad true) empty_adagrad = Done empty_adagrad.
Proof.
  assert (well_formed (Adagrad true) 0 empty_adagrad) as Hwf.
  { repeat (apply Forall_cons_2; [eexists; split; reflexivity|]). apply Forall_nil_2. }
  assert (dimension empty_adagrad "grad" = 0) as Hg by reflexivity.
  split; [exact Hwf|]. split; [exact Hg|]. split.
  - exact (empty_call ROCm (Adagrad true) empty_adagrad Hwf Hg).
  - exact (empty_call CUDA (Adagrad true) empty_adagrad Hwf Hg).
Defined.

(** C6 on the code. [lr] and [epsilon] are not broadcast in the update of
    [var]: element 1 reads the second element of the two one-element
    buffers. With nothing behind the scalars the call reads outside them;
    with [a] behind [lr] and [e] behind [epsilon], [var[1]] is computed
    from [a] and [e] in place of [lr] and [epsilon]. *)
Theorem adamax_scalars_not_broadcast :
  ApplyAdaMax (adamax_input [] []) = Undefined ∧
  ∀ a e : R,
    ∃ mem',
      ApplyAdaMax (adamax_input [a] [e]) = Done mem' ∧
      coeff mem' "m" 1 = (1/10)%R ∧ coeff mem' "v" 1 = 1%R ∧
      coeff mem' "var" 1 = (1 - a / (1 - 9/10) * (1/10 / (1 + e)))%R.
Proof.
  split.
  - apply (ApplyAdaMax_Undefined 2 _ 1); try (eexists; split; reflexivity).
    + lia.
    + left. reflexivity.
  - intros a e. eexists. split.
    { apply (ApplyAdaMax_result 2); try (eexists; split; reflexivity);
        apply Nat.eq_le_incl; reflexivity. }
    assert (adam_m (adamax_input [a] [e]) 1 = (1/10)%R) as Hm.
    { change ((0 + (1 - 9/10) * (1 - 0))%R = (1/10)%R). lra. }
    assert (adamax_v (adamax_input [a] [e]) 1 = 1%R) as Hv.
    { change (Rmax (999/1000 * 0) (Rabs 1) = 1%R).
      rewrite Rabs_R1. apply Rmax_right. lra. }
    rewrite (coeff_pointwise _ _ "m" (adam_m (adamax_input [a] [e])))
      by (reflexivity || (apply Nat.lt_succ_diag_r)).
    rewrite (coeff_pointwise _ _ "v" (adamax_v (adamax_input [a] [e])))
      by (reflexivity || (apply Nat.lt_succ_diag_r)).
    rewrite (coeff_pointwise _ _ "var" (adamax_var (adamax_input [a] [e])))
      by (reflexivity || (apply Nat.lt_succ_diag_r)).
    split; [exact Hm|]. split; [exact Hv|].
    unfold adamax_var. rewrite Hm, Hv. reflexivity.
Qed.

(** On a single element the scalars are the ones read. *)
Lemma adamax_first_element (N : nat) (mem : Mem R) :
  has_array mem "var" N → has_array mem "m" N → has_array mem "v" N →
  N ≤ dimension mem "lr" → N ≤ dimension mem "epsilon" → 0 < N →
  ∃ mem',
    ApplyAdaMax mem = Done mem' ∧
    coeff mem' "var" 0 =
      (coeff mem "var" 0 -
       coeff mem "lr" 0 / (1 - coeff mem "beta1_power" 0) *
       (coeff mem' "m" 0 / (coeff mem' "v" 0 + coeff mem "epsilon" 0)))%R.
Proof.
  intros Hv Hm Hw Hl He HN. eexists. split; [by apply (ApplyAdaMax_result N)|].
  apply has_array_flat in Hv as [_ Hv]. apply has_array_flat in Hm as [_ Hm].
  apply has_array_flat in Hw as [_ Hw].
  rewrite (coeff_pointwise _ _ "m" (adam_m mem))
    by (done || (unfold dimension; lia)).
  rewrite (coeff_pointwise _ _ "v" (adamax_v mem))
    by (done || (unfold dimension; lia)).
  rewrite (coeff_pointwise _ _ "var" (adamax_var mem))
    by (done || (unfold dimension; lia)).
  reflexivity.
Qed.

(** ** The literal [root2] *)

Section complex_roots_facts.
Local Open Scope R_scope.

Lemma root2_R : root2 = 7071067811865475 / 10000000000000000.
Proof. unfold root2. simpl. unfold Q2R. simpl. lra. Qed.

Lemma root2_pos : 0 < root2.
Proof. rewrite root2_R. lra. Qed.

Lemma sqrt2_bounds : 14142135623730950 / 10000000000000000 < sqrt 2
                     < 141421356237309505 / 100000000000000000.
Proof.
  split.
  - rewrite <- (sqrt_square (14142135623730950 / 10000000000000000)) by lra.
    apply sqrt_lt_1_alt. lra.
  - rewrite <- (sqrt_square (141421356237309505 / 100000000000000000)) by lra.
    apply sqrt_lt_1_alt. lra.
Qed.

Lemma sqrt_half (a : R) : sqrt a = sqrt (a / 2) * sqrt 2.
Proof.
  destruct (Rle_dec 0 a) as [Ha|Ha].
  - rewrite <- sqrt_mult_alt by lra. f_equal. lra.
  - rewrite !sqrt_neg_0 by lra. lra.
Qed.

Lemma lit_1 : Q2R 1 = 1.
Proof. unfold Q2R. simpl. lra. Qed.

Lemma lit_m1 : Q2R (-1) = -1.
Proof. unfold Q2R. simpl. lra. Qed.

Lemma impl_sqrt_complex_R (x : complex R) :
  impl_sqrt_complex x =
  Complex (sqrt (sqrt (real x * real x + imag x * imag x) + real x) * root2)
          (sqrt (sqrt (real x * real x + imag x * imag x) - real x) * root2 *
           branch_sign (imag x)).
Proof.
  unfold impl_sqrt_complex, branch_sign. simpl. unfold Rgeb.
  destruct (Rle_dec 0 (imag x)); by rewrite ?lit_1, ?lit_m1.
Qed.

Lemma rsqrt_helper_R (u : R) :
  rsqrt_helper u = 1/2 * u + 1/8 * u * u + 1/16 * u * u * u.
Proof. unfold rsqrt_helper. simpl. unfold Q2R. simpl. lra. Qed.

End complex_roots_facts.

(** The input [x = 0.5 + 0i] on binary64: the code returns
    [0x1.6a09e667f3bccp-1], the formula of the specification evaluated in
    binary64 the next value up. *)
Example impl_sqrt_binary64 :
  impl_sqrt_complex (Complex 0x1p-1%float 0%float) =
    Complex 0x1.6a09e667f3bccp-1%float 0%float ∧
  sc_sqrt (sc_div (sc_add 0x1p-1 0x1p-1) 2)%float = 0x1.6a09e667f3bcdp-1%float.
Proof. split; reflexivity. Qed.

(** ** The literals as stored *)

(** On the two literals of this file that are not binary fractions the
    rounding to 53 bits is the binary64 value the hardware computes. *)
Example double_lit_binary64 :
  Prim2SF (float_lit 0.7071067811865475) =
    S754_finite false 6369051672525772 (-53) ∧
  double_lit 0.7071067811865475 = Qred (6369051672525772 # 9007199254740992) ∧
  Prim2SF (float_lit 0.98) = S754_finite false 8827055269646172 (-53) ∧
  double_lit 0.98 = Qred (8827055269646172 # 9007199254740992).
Proof. repeat split; vm_compute; reflexivity. Qed.

Section stored_facts.
Local Open Scope R_scope.

Lemma sqrt2_lower : 141421356237309504 / 100000000000000000 < sqrt 2.
Proof.
  rewrite <- (sqrt_square (141421356237309504 / 100000000000000000)) by lra.
  apply sqrt_lt_1_alt. lra.
Qed.

(** [root2] is [0x1.6a09e6p-1] as a float and [0x1.6a09e667f3bccp-1] as a
    double. *)
Lemma root2_stored (p : precision) :
  @root2 R _ (R_stored p) =
  match p with
  | single => 11863283 / 16777216
  | double => 1592262918131443 / 2251799813685248
  end.
Proof.
  destruct p.
  - change (Q2R (const_lit single 0.7071067811865475) = 11863283 / 16777216).
    assert (const_lit single 0.7071067811865475 = (11863283 # 16777216)%Q) as ->
      by (vm_compute; reflexivity).
    unfold Q2R. simpl. lra.
  - change (Q2R (const_lit double 0.7071067811865475) =
            1592262918131443 / 2251799813685248).
    assert (const_lit double 0.7071067811865475 =
            (1592262918131443 # 2251799813685248)%Q) as ->
      by (vm_compute; reflexivity).
    unfold Q2R. simpl. lra.
Qed.

Lemma root2_stored_pos (p : precision) : 0 < @root2 R _ (R_stored p).
Proof. rewrite root2_stored. destruct p; lra. Qed.

(** The constant is [1/sqrt(2)] to within the unit roundoff of its type. *)
Lemma root2_error_bound (p : precision) : Rabs (root2_error p) <= unit_roundoff p.
Proof.
  unfold root2_error. rewrite root2_stored.
  pose proof sqrt2_lower as Hl. pose proof sqrt2_bounds as [_ Hu].
  apply Rabs_le. destruct p; unfold unit_roundoff; simpl pow; lra.
Qed.

Lemma times_root2_stored (p : precision) (a : R) :
  a * @root2 R _ (R_stored p) = a / sqrt 2 * (1 + root2_error p).
Proof.
  unfold root2_error. pose proof sqrt2_lower. field. lra.
Qed.

(** The literals [1], [-1], [0.5], [0.125] and [0.0625] are doubles. *)
Lemma stored_1 : Q2R (double_lit 1) = 1.
Proof.
  assert (double_lit 1 = 1%Q) as -> by (vm_compute; reflexivity).
  unfold Q2R. simpl. lra.
Qed.

Lemma stored_m1 : Q2R (double_lit (-1)) = -1.
Proof.
  assert (double_lit (-1) = (-1)%Q) as -> by (vm_compute; reflexivity).
  unfold Q2R. simpl. lra.
Qed.

Lemma rsqrt_helper_stored (p : precision) (u : R) :
  @rsqrt_helper R _ (R_stored p) u = 1/2 * u + 1/8 * u * u + 1/16 * u * u * u.
Proof.
  unfold rsqrt_helper. cbn [rs_lit R_stored sc_mul sc_add R_Scalar].
  assert (double_lit 0.5 = (1 # 2)%Q) as -> by (vm_compute; reflexivity).
  assert (double_lit 0.125 = (1 # 8)%Q) as -> by (vm_compute; reflexivity).
  assert (double_lit 0.0625 = (1 # 16)%Q) as -> by (vm_compute; reflexivity).
  unfold Q2R. simpl. lra.
Qed.

(** [-0.98] is the opposite of [0.98] as a double as well, and that double
    is [0.98] to within [2^-53]. *)
Lemma stored_m098 : Q2R (double_lit (-0.98)) = - threshold.
Proof.
  unfold threshold. rewrite <- Qreals.Q2R_opp.
  assert (double_lit (-0.98) = (- double_lit 0.98)%Q) as ->
    by (vm_compute; reflexivity).
  reflexivity.
Qed.

Lemma threshold_bound : Rabs (threshold - 98 / 100) <= / 2 ^ 53.
Proof.
  unfold threshold.
  assert (double_lit 0.98 = (2206763817411543 # 2251799813685248)%Q) as ->
    by (vm_compute; reflexivity).
  unfold Q2R. simpl IZR. simpl pow. apply Rabs_le. lra.
Qed.

End stored_facts.

(** C2. In exact arithmetic, with [root2] the [float] resp. [double] the
    code stores, the real part of [impl_sqrt(x)] is [sqrt((mod+re)/2)] and
    the imaginary part [sqrt((mod-re)/2)] with the sign of [im], each
    times [1 + d] where [d], the rounding of the literal for [1/sqrt(2)],
    is within the unit roundoff of the type ([2^-24] resp. [2^-53]); the
    imaginary part is non-negative for [im >= 0] ([im = 0] included) and
    non-positive for [im < 0]. *)
Theorem impl_sqrt_complex_value (p : precision) (x : complex R) :
  let re := real x in
  let im := imag x in
  let mod_x := sqrt (re * re + im * im) in
  let y := @impl_sqrt_complex R _ (R_stored p) x in
  (Rabs (root2_error p) <= unit_roundoff p)%R ∧
  real y = (sqrt ((mod_x + re) / 2) * (1 + root2_error p))%R ∧
  imag y = (sqrt ((mod_x - re) / 2) * branch_sign im * (1 + root2_error p))%R ∧
  ((0 <= im)%R → (0 <= imag y)%R) ∧
  ((im < 0)%R → (imag y <= 0)%R).
Proof.
  intros re im mod_x y. subst y. unfold impl_sqrt_complex.
  cbn [real imag sc_sqrt sc_mul sc_add sc_sub sc_zero R_Scalar rs_lit rs_geb R_stored].
  fold re im mod_x. rewrite stored_1, stored_m1.
  assert (Rgeb im 0 = if Rle_dec 0 im then true else false) as -> by reflexivity.
  pose proof (root2_stored_pos p) as Hr.
  pose proof (sqrt_pos (mod_x - re)) as Hs.
  assert (0 <= sqrt (mod_x - re) * @root2 R _ (R_stored p))%R as Hsr
    by (apply Rmult_le_pos; lra).
  split; [apply root2_error_bound|].
  split; [|split; [|split]].
  - rewrite times_root2_stored, (sqrt_half (mod_x + re)).
    pose proof sqrt2_lower. field. lra.
  - rewrite times_root2_stored, (sqrt_half (mod_x - re)).
    pose proof sqrt2_lower. unfold branch_sign.
    destruct (Rle_dec 0 im); field; lra.
  - intros Him. destruct (Rle_dec 0 im); lra.
  - intros Him. destruct (Rle_dec 0 im); lra.
Qed.

(** The theorem at [x = -1 + 0i] for float: the imaginary part is not
    negative. *)
Lemma impl_sqrt_complex_value_witness :
  (0 <= imag (Complex (-1)%R 0%R))%R ∧
  (0 <= imag (@impl_sqrt_complex R _ (R_stored single) (Complex (-1)%R 0%R)))%R.
Proof.
  assert (0 <= imag (Complex (-1)%R 0%R))%R as Him by (simpl; lra).
  split; [exact Him|].
  exact (proj1 (proj2 (proj2 (proj2
           (impl_sqrt_complex_value single (Complex (-1)%R 0%R))))) Him).
Defined.

(** C3. In exact arithmetic, with the literals the [double]s they are and
    [root2] the [float] resp. [double] the code stores, [impl_rsqrt(x)]
    has real part [sqrt(r*(1+re*r))/sqrt(2)] and imaginary part
    [-sqrt(r*(1-re*r))/sqrt(2)*sign(im)], each times [1 + d], [d] within
    the unit roundoff of the type; for float, and for float only, the
    polynomial [0.5u + 0.125u^2 + 0.0625u^3], [u = im^2*r^2], stands for
    [1-re*r] where [re*r > 0.98] and for [1+re*r] where [re*r < -0.98]
    ([0.98] being its double). The imaginary part is non-positive for
    [im >= 0] and non-negative for [im < 0]. *)
Theorem impl_rsqrt_complex_value (p : precision) (x : complex R) :
  let re := real x in
  let im := imag x in
  let r := (/ sqrt (re * re + im * im))%R in
  let u := (im * im * r * r)%R in
  let poly := (1/2 * u + 1/8 * u * u + 1/16 * u * u * u)%R in
  let A := if is_float p && Rltb (re * r) (- threshold) then poly else (1 + re * r)%R in
  let B := if is_float p && Rgtb (re * r) threshold then poly else (1 - re * r)%R in
  let y := @impl_rsqrt_complex R _ (R_stored p) (is_float p) x in
  (Rabs (root2_error p) <= unit_roundoff p)%R ∧
  (Rabs (threshold - 98 / 100) <= / 2 ^ 53)%R ∧
  real y = (sqrt (r * A) / sqrt 2 * (1 + root2_error p))%R ∧
  imag y = (- sqrt (r * B) / sqrt 2 * branch_sign im * (1 + root2_error p))%R ∧
  ((0 <= im)%R → (imag y <= 0)%R) ∧
  ((im < 0)%R → (0 <= imag y)%R).
Proof.
  intros re im r u poly A B y. subst y. unfold impl_rsqrt_complex.
  cbn [real imag sc_rsqrt sc_sqrt sc_mul sc_add sc_sub sc_one sc_zero R_Scalar
       rs_lit rs_ltb rs_gtb rs_geb R_stored].
  rewrite !rsqrt_helper_stored, stored_1, stored_m1, stored_m098.
  fold threshold re im r. fold u. fold poly. fold A B.
  assert (Rgeb im 0 = if Rle_dec 0 im then true else false) as -> by reflexivity.
  pose proof (root2_stored_pos p) as Hr.
  pose proof (sqrt_pos (r * B)) as Hs.
  assert (0 <= sqrt (r * B) * @root2 R _ (R_stored p))%R as Hsr
    by (apply Rmult_le_pos; lra).
  split; [apply root2_error_bound|]. split; [apply threshold_bound|].
  split; [|split; [|split]].
  - apply times_root2_stored.
  - rewrite (times_root2_stored p (sqrt (r * B))). unfold branch_sign, Rdiv.
    destruct (Rle_dec 0 im); ring.
  - intros Him. destruct (Rle_dec 0 im); lra.
  - intros Him. destruct (Rle_dec 0 im); lra.
Qed.

(** The theorem at [x = -1 + 0i] for float: the imaginary part is not
    positive. *)
Lemma impl_rsqrt_complex_value_witness :
  (0 <= imag (Complex (-1)%R 0%R))%R ∧
  (imag (@impl_rsqrt_complex R _ (R_stored single) (is_float single)
           (Complex (-1)%R 0%R)) <= 0)%R.
Proof.
  assert (0 <= imag (Complex (-1)%R 0%R))%R as Him by (simpl; lra).
  split; [exact Him|].
  exact (proj1 (proj2 (proj2 (proj2 (proj2
           (impl_rsqrt_complex_value single (Complex (-1)%R 0%R)))))) Him).
Defined.

Section pointwise_ext_facts.
Context {T : Type} `{Scalar T}.

Lemma pointwise_ext (F G : elementwise) (mem : Mem T) :
  (∀ k, match F k, G k with
        | Some f, Some g => ∀ i, f i = g i
        | None, None => True
        | _, _ => False
        end) →
  pointwise F mem = pointwise G mem.
Proof.
  intros HFG. apply map_eq. intros k. rewrite !lookup_pointwise.
  specialize (HFG k). destruct (mem !! k) as [l|]; simpl; [|done].
  destruct (F k), (G k); try done. f_equal. apply imap_ext. intros. apply HFG.
Qed.

End pointwise_ext_facts.

(** In any arithmetic the two paths of Adagrad and of AdagradV2 evaluate
    the same expression when [impl_sqrt] and [impl_rsqrt] are the generic
    templates, so their results are the same to the bit. *)
Lemma adagrad_paths_identical {T : Type} `{Scalar T}
    (update_slots : bool) (N : nat) (mem : Mem T) :
  has_array mem "var" N → has_array mem "accum" N →
  Done (ApplyAdagradKernel (H0:=Generic_Impl) {| virtual_thread_count := N |}
          "var" "accum" "lr" "grad" update_slots mem) =
    ApplyAdagrad (H0:=Generic_Impl) CUDA update_slots mem ∧
  Done (ApplyAdagradV2Kernel (H0:=Generic_Impl) {| virtual_thread_count := N |}
          "var" "accum" "lr" "epsilon" "grad" update_slots mem) =
    ApplyAdagradV2 (H0:=Generic_Impl) CUDA update_slots mem.
Proof.
  intros Hv Ha. split.
  - rewrite (ApplyAdagradKernel_result N), (ApplyAdagrad_CUDA_result N) by done.
    reflexivity.
  - rewrite (ApplyAdagradV2Kernel_result N), (ApplyAdagradV2_CUDA_result N) by done.
    reflexivity.
Qed.

Section complex_elements_facts.
Local Open Scope R_scope.

(** The native square root is one: its square is its argument. *)
Lemma sqrt_of_spec_sqr (x : complex R) : Cmul (sqrt_of_spec x) (sqrt_of_spec x) = x.
Proof.
  destruct x as [re im]. unfold Cmul, sqrt_of_spec. cbn [real imag].
  set (m := sqrt (re * re + im * im)).
  assert (0 <= re * re + im * im) as Hnn by nra.
  assert (m * m = re * re + im * im) as Hm by (by apply sqrt_sqrt).
  assert (0 <= m) as Hm0 by apply sqrt_pos.
  assert (0 <= (m + re) / 2) as Hp by nra.
  assert (0 <= (m - re) / 2) as Hq by nra.
  assert (branch_sign im * branch_sign im = 1) as Hs
    by (unfold branch_sign; destruct (Rle_dec 0 im); lra).
  assert (sqrt ((m + re) / 2) * sqrt ((m - re) / 2) * branch_sign im = im / 2) as Hi.
  { rewrite <- sqrt_mult_alt by done.
    replace ((m + re) / 2 * ((m - re) / 2)) with ((im / 2) * (im / 2)) by nra.
    unfold branch_sign. destruct (Rle_dec 0 im).
    - rewrite sqrt_square by lra. lra.
    - replace (im / 2 * (im / 2)) with ((- im / 2) * (- im / 2)) by lra.
      rewrite sqrt_square by lra. lra. }
  pose proof (sqrt_sqrt _ Hp) as Hp2. pose proof (sqrt_sqrt _ Hq) as Hq2.
  f_equal; nra.
Qed.

End complex_elements_facts.

(** On binary64 the two RMSProp paths are a unit in the last place apart:
    the kernel multiplies by the reciprocal square root, the Eigen
    expression divides by the square root. *)
Example rmsprop_binary64_paths :
  ApplyRMSPropKernel {| virtual_thread_count := 1 |}
    "var" "ms" "mom" "lr" "rho" "momentum" "epsilon" "grad" rmsprop_binary64
    !! "mom" = Some [0x1.aaaaaaaaaaaaap+0%float] ∧
  (∃ mem', ApplyRMSProp CUDA rmsprop_binary64 = Done mem' ∧
           mem' !! "mom" = Some [0x1.aaaaaaaaaaaabp+0%float]).
Proof.
  split.
  - vm_compute. reflexivity.
  - eexists. split; [reflexivity|]. vm_compute. reflexivity.
Qed.

(** * Further properties of the functors *)

Ltac written_only_more :=
  intros k; unfold override, dimension;
  cbv beta delta [gradient_descent_table momentum_table keras_table
                  addsign_table powersign_table];
  repeat case_decide; subst; try done; try (by intros []); try (intros _; lia).

Section more_results_facts.
Context {T : Type} `{Scalar T}.
Local Open Scope sc_scope.
Implicit Types (mem : Mem T).

Lemma ApplyGradientDescent_result N mem :
  has_array mem "var" N →
  ApplyGradientDescent mem = pointwise (gradient_descent_table mem) mem.
Proof.
  intros [Hv Hvn]%has_array_flat.
  rewrite <- (pointwise_upto_all (fun _ => N)) by written_only_more.
  unfold ApplyGradientDescent.
  assign_first (gradient_descent_table mem) "var"; [|reflexivity].
  apply pointwise_upto_ext. written_only_more.
Qed.

Lemma ApplyMomentum_result N use_nesterov mem :
  has_array mem "var" N → has_array mem "accum" N →
  ApplyMomentum use_nesterov mem = pointwise (momentum_table use_nesterov mem) mem.
Proof.
  intros [Hv Hvn]%has_array_flat [Ha Han]%has_array_flat.
  rewrite <- (pointwise_upto_all (fun _ => N)) by written_only_more.
  unfold ApplyMomentum.
  assign_first (momentum_table use_nesterov mem) "accum"; [|reflexivity].
  destruct use_nesterov.
  - assign_next "var".
    2:{ read_mem. reflexivity. }
    apply pointwise_upto_ext. written_only_more.
  - assign_next "var".
    2:{ read_mem. reflexivity. }
    apply pointwise_upto_ext. written_only_more.
Qed.

Lemma ApplyKerasMomentum_result N use_nesterov mem :
  has_array mem "var" N → has_array mem "accum" N →
  ApplyKerasMomentum use_nesterov mem = pointwise (keras_table use_nesterov mem) mem.
Proof.
  intros [Hv Hvn]%has_array_flat [Ha Han]%has_array_flat.
  rewrite <- (pointwise_upto_all (fun _ => N)) by written_only_more.
  unfold ApplyKerasMomentum.
  assign_first (keras_table use_nesterov mem) "accum"; [|reflexivity].
  destruct use_nesterov.
  - assign_next "var".
    2:{ read_mem. reflexivity. }
    apply pointwise_upto_ext. written_only_more.
  - assign_next "var".
    2:{ read_mem. reflexivity. }
    apply pointwise_upto_ext. written_only_more.
Qed.

End more_results_facts.

Section more_real_results_facts.
Context {T : Type} `{RealScalar T}.
Local Open Scope sc_scope.
Implicit Types (mem : Mem T).

Lemma ApplyAddSign_result N mem :
  has_array mem "var" N → has_array mem "m" N →
  ApplyAddSign mem = pointwise (addsign_table mem) mem.
Proof.
  intros [Hv Hvn]%has_array_flat [Hm Hmn]%has_array_flat.
  rewrite <- (pointwise_upto_all (fun _ => N)) by written_only_more.
  unfold ApplyAddSign, one_minus.
  assign_first (addsign_table mem) "m"; [|reflexivity].
  assign_next "var".
  2:{ read_mem. reflexivity. }
  apply pointwise_upto_ext. written_only_more.
Qed.

Context `{Exp T}.

Lemma ApplyPowerSign_result N mem :
  has_array mem "var" N → has_array mem "m" N →
  ApplyPowerSign mem = pointwise (powersign_table mem) mem.
Proof.
  intros [Hv Hvn]%has_array_flat [Hm Hmn]%has_array_flat.
  rewrite <- (pointwise_upto_all (fun _ => N)) by written_only_more.
  unfold ApplyPowerSign, one_minus.
  assign_first (powersign_table mem) "m"; [|reflexivity].
  assign_next "var".
  2:{ read_mem. reflexivity. }
  apply pointwise_upto_ext. written_only_more.
Qed.

End more_real_results_facts.

(** ** Updates shared between functors *)

(** X2. [use_nesterov] does not reach the accumulator of Momentum and of
    KerasMomentum: the two settings of the flag leave the same [accum]. *)
Theorem momentum_nesterov_accum {T : Type} `{Scalar T} (mem : Mem T) :
  ApplyMomentum true mem !! "accum" = ApplyMomentum false mem !! "accum" ∧
  ApplyKerasMomentum true mem !! "accum" = ApplyKerasMomentum false mem !! "accum".
Proof.
  cbv beta iota zeta delta [ApplyMomentum ApplyKerasMomentum].
  split; (etrans; [by apply lookup_assign_ne|symmetry; by apply lookup_assign_ne]).
Qed.

(** X3. AdamWithAmsgrad updates [m] and [v] as Adam does, under either
    setting of Adam's [use_nesterov]. *)
Theorem amsgrad_m_v_as_adam {T : Type} `{RealScalar T}
    (use_nesterov : bool) (mem : Mem T) :
  ApplyAdamWithAmsgrad mem !! "m" = ApplyAdam use_nesterov mem !! "m" ∧
  ApplyAdamWithAmsgrad mem !! "v" = ApplyAdam use_nesterov mem !! "v".
Proof.
  cbv beta iota zeta delta [ApplyAdamWithAmsgrad ApplyAdam].
  destruct use_nesterov;
    (split; rewrite (lookup_assign_ne _ "var") by done;
            rewrite (lookup_assign_ne _ "vhat") by done;
            symmetry; by apply lookup_assign_ne).
Qed.

(** X4. AddSign and PowerSign update [m] alike. *)
Theorem addsign_powersign_m {T : Type} `{RealScalar T} `{Exp T} (mem : Mem T) :
  ApplyAddSign mem !! "m" = ApplyPowerSign mem !! "m".
Proof.
  cbv beta iota zeta delta [ApplyAddSign ApplyPowerSign].
  etrans; [by apply lookup_assign_ne|symmetry; by apply lookup_assign_ne].
Qed.

(** ** Both backends on arrays of [0 < N < 2^31] elements *)

Lemma ApplyAdagradV2_result {T : Type} `{Scalar T} `{Impl T}
    (b : backend) (update_slots : bool) (N : nat) (mem : Mem T) :
  has_array mem "var" N → has_array mem "accum" N → has_array mem "grad" N →
  (b = ROCm → (0 < Z.of_nat N < 2 ^ 31)%Z) →
  ApplyAdagradV2 b update_slots mem =
  Done (pointwise (adagradv2_table (path_sqrt b) update_slots mem) mem).
Proof.
  intros Hv Ha Hg HN. destruct b.
  - by apply (ApplyAdagradV2_CUDA_result N).
  - unfold ApplyAdagradV2. rewrite (launch_kernel N) by auto.
    f_equal. by apply (ApplyAdagradV2Kernel_result N).
Qed.

Lemma ApplyRMSProp_result (b : backend) (N : nat) (mem : Mem R) :
  has_array mem "var" N → has_array mem "ms" N → has_array mem "mom" N →
  has_array mem "grad" N → (b = ROCm → (0 < Z.of_nat N < 2 ^ 31)%Z) →
  ApplyRMSProp b mem = Done (pointwise (rmsprop_table rmsprop_mom_eigen mem) mem).
Proof.
  intros Hv Hs Hm Hg HN. destruct b.
  - by apply (ApplyRMSProp_CUDA_result N).
  - unfold ApplyRMSProp. rewrite (launch_kernel N) by auto.
    f_equal. etrans; [by apply (ApplyRMSPropKernel_result N)|reflexivity].
Qed.

Lemma ApplyCenteredRMSProp_result (b : backend) (N : nat) (mem : Mem R) :
  has_array mem "var" N → has_array mem "mg" N → has_array mem "ms" N →
  has_array mem "mom" N → has_array mem "grad" N →
  (b = ROCm → (0 < Z.of_nat N < 2 ^ 31)%Z) →
  ApplyCenteredRMSProp b mem =
  Done (pointwise (centered_table centered_mom_eigen mem) mem).
Proof.
  intros Hv Hg' Hs Hm Hg HN. destruct b.
  - by apply (ApplyCenteredRMSProp_CUDA_result N).
  - unfold ApplyCenteredRMSProp. rewrite (launch_kernel N) by auto.
    f_equal. etrans; [by apply (ApplyCenteredRMSPropKernel_result N)|reflexivity].
Qed.

Lemma coeff_pointwise_array {T : Type} `{Scalar T}
    (F : elementwise) (mem : Mem T) k f N i :
  has_array mem k N → F k = Some f → i < N → coeff (pointwise F mem) k i = f i.
Proof.
  intros [_ Hk]%has_array_flat HF Hi. apply coeff_pointwise; [done|].
  unfold dimension. lia.
Qed.

Lemma lookup_pointwise_ext {T : Type} `{Scalar T}
    (F G : elementwise) (mem : Mem T) k f g N :
  has_array mem k N → F k = Some f → G k = Some g →
  (∀ i, i < N → f i = g i) →
  pointwise F mem !! k = pointwise G mem !! k.
Proof.
  intros (l & Hl & Hn) HF HG Hfg. rewrite !lookup_pointwise, HF, HG, Hl. simpl.
  f_equal. apply imap_ext. intros i a Hi. apply Hfg.
  apply lookup_lt_Some in Hi. lia.
Qed.

(** ** The two paths in exact arithmetic *)

(** X19. Over the reals, exact arithmetic with the reciprocal square root
    the reciprocal of the square root, the kernel of Adagrad, AdagradV2,
    Adadelta, RMSProp and CenteredRMSProp run over the [N] elements leaves
    the memory that the Eigen expressions leave; so does the ROCm functor
    for a count [0 < N < 2^31]. *)
Theorem kernel_path_eq_eigen_path (f : family)
    (kernel : GpuLaunchConfig → Mem R → Mem R) (N : nat) (mem : Mem R) :
  kernel_of f = Some kernel → well_formed f N mem →
  Done (kernel {| virtual_thread_count := N |} mem) = call CUDA f mem ∧
  (has_array mem "grad" N → (0 < Z.of_nat N < 2 ^ 31)%Z →
   call ROCm f mem = call CUDA f mem).
Proof.
  intros Hk Hwf.
  assert (∀ x, x ∈ written f → has_array mem x N) as Hx by (by apply Forall_forall).
  assert (Done (kernel {| virtual_thread_count := N |} mem) = call CUDA f mem) as Heq.
  { destruct f; simpl in Hk, Hx; try discriminate Hk; injection Hk as <-;
      cbv beta iota delta [call].
    - rewrite (ApplyAdagradKernel_result N), (ApplyAdagrad_CUDA_result N)
        by (apply Hx; set_solver).
      reflexivity.
    - rewrite (ApplyAdagradV2Kernel_result N), (ApplyAdagradV2_CUDA_result N)
        by (apply Hx; set_solver).
      reflexivity.
    - rewrite (ApplyAdadeltaKernel_result N), (ApplyAdadelta_CUDA_result N)
        by (apply Hx; set_solver).
      f_equal. apply pointwise_ext. intros k.
      assert (∀ i, adadelta_update_kernel mem i = adadelta_update_eigen mem i) as Hu.
      { intros i. unfold adadelta_update_kernel, adadelta_update_eigen. simpl. ring. }
      unfold adadelta_table. repeat case_decide; try done; intros i; by rewrite Hu.
    - rewrite (ApplyRMSPropKernel_result N), (ApplyRMSProp_CUDA_result N)
        by (apply Hx; set_solver).
      (* in R, [a / b] is [a * / b] *)
      reflexivity.
    - rewrite (ApplyCenteredRMSPropKernel_result N), (ApplyCenteredRMSProp_CUDA_result N)
        by (apply Hx; set_solver).
      reflexivity. }
  split; [exact Heq|].
  intros Hg HN. rewrite (call_ROCm_kernel f kernel) by done.
  rewrite (launch_kernel N) by done. exact Heq.
Qed.

Lemma kernel_path_eq_eigen_path_witness :
  kernel_of RMSProp =
    Some (fun config =>
      ApplyRMSPropKernel config "var" "ms" "mom"
        "lr" "rho" "momentum" "epsilon" "grad") ∧
  well_formed RMSProp 3 rmsprop_three ∧
  has_array rmsprop_three "grad" 3 ∧ (0 < Z.of_nat 3 < 2 ^ 31)%Z ∧
  Done (ApplyRMSPropKernel {| virtual_thread_count := 3 |}
          "var" "ms" "mom" "lr" "rho" "momentum" "epsilon" "grad" rmsprop_three) =
    call CUDA RMSProp rmsprop_three ∧
  call ROCm RMSProp rmsprop_three = call CUDA RMSProp rmsprop_three.
Proof.
  assert (well_formed RMSProp 3 rmsprop_three) as Hwf.
  { repeat (apply Forall_cons_2; [eexists; split; reflexivity|]). apply Forall_nil_2. }
  assert (has_array rmsprop_three "grad" 3) as Hg by (eexists; split; reflexivity).
  assert (0 < Z.of_nat 3 < 2 ^ 31)%Z as HN by lia.
  split; [reflexivity|]. split; [exact Hwf|]. split; [exact Hg|].
  split; [exact HN|].
  split.
  - exact (proj1 (kernel_path_eq_eigen_path RMSProp _ 3 rmsprop_three eq_refl Hwf)).
  - exact (proj2 (kernel_path_eq_eigen_path RMSProp _ 3 rmsprop_three eq_refl Hwf)
             Hg HN).
Defined.

(** ** Exact-arithmetic invariants of the state arrays *)

(** X5. Over the reals, on either backend (on ROCm for a count
    [0 < N < 2^31]): with [update_slots] the accumulator of Adagrad and of
    AdagradV2 never decreases; without it the accumulator keeps its
    values. *)
Theorem adagrad_accum_monotone (b : backend) (update_slots : bool) (N : nat)
    (mem : Mem R) :
  has_array mem "var" N → has_array mem "accum" N → has_array mem "grad" N →
  (b = ROCm → (0 < Z.of_nat N < 2 ^ 31)%Z) →
  ∃ mem1 mem2,
    ApplyAdagrad b update_slots mem = Done mem1 ∧
    ApplyAdagradV2 b update_slots mem = Done mem2 ∧
    ∀ i, i < N →
      (coeff mem "accum" i <= coeff mem1 "accum" i)%R ∧
      coeff mem2 "accum" i = coeff mem1 "accum" i ∧
      (update_slots = false → coeff mem1 "accum" i = coeff mem "accum" i).
Proof.
  intros Hv Ha Hg HN. eexists _, _.
  split; [by apply (ApplyAdagrad_result b update_slots N)|].
  split; [by apply (ApplyAdagradV2_result b update_slots N)|].
  intros i Hi.
  assert (coeff (pointwise (adagrad_table (path_rsqrt b) update_slots mem) mem)
            "accum" i = adagrad_accum update_slots mem i) as ->.
  { destruct update_slots.
    - by apply (coeff_pointwise_array _ _ _ _ N).
    - unfold coeff, flat. by rewrite pointwise_frame. }
  assert (coeff (pointwise (adagradv2_table (path_sqrt b) update_slots mem) mem)
            "accum" i = adagrad_accum update_slots mem i) as ->.
  { destruct update_slots.
    - by apply (coeff_pointwise_array _ _ _ _ N).
    - unfold coeff, flat. by rewrite pointwise_frame. }
  split; [|split; [done|by intros ->]].
  destruct update_slots; simpl; [|lra].
  pose proof (Rle_0_sqr (coeff mem "grad" i)) as Hsq. unfold Rsqr in Hsq. lra.
Qed.

Lemma adagrad_accum_monotone_witness :
  has_array adagrad_scenario "var" 1 ∧ has_array adagrad_scenario "accum" 1 ∧
  has_array adagrad_scenario "grad" 1 ∧
  (ROCm = ROCm → (0 < Z.of_nat 1 < 2 ^ 31)%Z) ∧
  ∃ mem1 mem2,
    ApplyAdagrad ROCm true adagrad_scenario = Done mem1 ∧
    ApplyAdagradV2 ROCm true adagrad_scenario = Done mem2 ∧
    ∀ i, i < 1 →
      (coeff adagrad_scenario "accum" i <= coeff mem1 "accum" i)%R ∧
      coeff mem2 "accum" i = coeff mem1 "accum" i ∧
      (true = false → coeff mem1 "accum" i = coeff adagrad_scenario "accum" i).
Proof.
  assert (has_array adagrad_scenario "var" 1) as Hv by (eexists; split; reflexivity).
  assert (has_array adagrad_scenario "accum" 1) as Ha by (eexists; split; reflexivity).
  assert (has_array adagrad_scenario "grad" 1) as Hg by (eexists; split; reflexivity).
  assert (ROCm = ROCm → (0 < Z.of_nat 1 < 2 ^ 31)%Z) as HN by (intros; lia).
  repeat (split; [assumption|]).
  exact (adagrad_accum_monotone ROCm true 1 adagrad_scenario Hv Ha Hg HN).
Defined.

Lemma convex_step (a q c : R) :
  (0 <= c <= 1)%R → (Rmin a q <= a + (1 - c) * (q - a) <= Rmax a q)%R.
Proof.
  intros Hc.
  pose proof (Rmin_l a q). pose proof (Rmin_r a q).
  pose proof (Rmax_l a q). pose proof (Rmax_r a q).
  split; nra.
Qed.

(** X6. With [beta1] and [beta2] in [[0,1]] an Adam call leaves every
    [m[i]] between its old value and [grad[i]], and every [v[i]] between
    its old value and [grad[i]^2]; a non-negative [v] stays
    non-negative. *)
Theorem adam_moments_between (use_nesterov : bool) (N : nat) (mem : Mem R) :
  has_array mem "var" N → has_array mem "m" N → has_array mem "v" N →
  (0 <= coeff mem "beta1" 0 <= 1)%R → (0 <= coeff mem "beta2" 0 <= 1)%R →
  let mem' := ApplyAdam use_nesterov mem in
  ∀ i, i < N →
    (Rmin (coeff mem "m" i) (coeff mem "grad" i) <= coeff mem' "m" i
     <= Rmax (coeff mem "m" i) (coeff mem "grad" i))%R ∧
    (Rmin (coeff mem "v" i) (coeff mem "grad" i * coeff mem "grad" i)
     <= coeff mem' "v" i
     <= Rmax (coeff mem "v" i) (coeff mem "grad" i * coeff mem "grad" i))%R ∧
    ((0 <= coeff mem "v" i)%R → (0 <= coeff mem' "v" i)%R).
Proof.
  intros Hv Hm Hw H1 H2 mem' i Hi. subst mem'.
  rewrite (ApplyAdam_result N) by done.
  rewrite (coeff_pointwise_array _ _ "m" (adam_m mem) N) by done.
  rewrite (coeff_pointwise_array _ _ "v" (adam_v mem) N) by done.
  pose proof (convex_step (coeff mem "m" i) (coeff mem "grad" i) _ H1) as Hcm.
  pose proof (convex_step (coeff mem "v" i)
                (coeff mem "grad" i * coeff mem "grad" i) _ H2) as Hcv.
  split; [exact Hcm|]. split; [exact Hcv|].
  intros Hv0. unfold adam_v. simpl.
  pose proof (Rle_0_sqr (coeff mem "grad" i)) as Hsq. unfold Rsqr in Hsq.
  assert (0 <= Rmin (coeff mem "v" i) (coeff mem "grad" i * coeff mem "grad" i))%R
    by (by apply Rmin_glb).
  simpl in Hcv. lra.
Qed.

Lemma adam_moments_between_witness :
  has_array (adam_scenario 1) "var" 1 ∧ has_array (adam_scenario 1) "m" 1 ∧
  has_array (adam_scenario 1) "v" 1 ∧
  (0 <= coeff (adam_scenario 1) "beta1" 0 <= 1)%R ∧
  (0 <= coeff (adam_scenario 1) "beta2" 0 <= 1)%R ∧
  ((0 <= coeff (adam_scenario 1) "v" 0)%R →
   (0 <= coeff (ApplyAdam true (adam_scenario 1)) "v" 0)%R).
Proof.
  assert (has_array (adam_scenario 1) "var" 1) as Hv by (eexists; split; reflexivity).
  assert (has_array (adam_scenario 1) "m" 1) as Hm by (eexists; split; reflexivity).
  assert (has_array (adam_scenario 1) "v" 1) as Hw by (eexists; split; reflexivity).
  assert (0 <= coeff (adam_scenario 1) "beta1" 0 <= 1)%R as H1
    by (change (0 <= 9/10 <= 1)%R; lra).
  assert (0 <= coeff (adam_scenario 1) "beta2" 0 <= 1)%R as H2
    by (change (0 <= 999/1000 <= 1)%R; lra).
  repeat (split; [assumption|]).
  exact (proj2 (proj2 (adam_moments_between true 1 (adam_scenario 1)
                         Hv Hm Hw H1 H2 0 (Nat.lt_0_succ 0)))).
Defined.

(** X7. Over the reals, on either backend (on ROCm for a count
    [0 < N < 2^31]), with [rho] in [[0,1]], an RMSProp call leaves every
    [ms[i]] between its old value and [grad[i]^2], and [var[i]] is the old
    [var[i]] less the new [mom[i]]. *)
Theorem rmsprop_ms_between (b : backend) (N : nat) (mem : Mem R) :
  has_array mem "var" N → has_array mem "ms" N → has_array mem "mom" N →
  has_array mem "grad" N → (b = ROCm → (0 < Z.of_nat N < 2 ^ 31)%Z) →
  (0 <= coeff mem "rho" 0 <= 1)%R →
  ∃ mem',
    ApplyRMSProp b mem = Done mem' ∧
    ∀ i, i < N →
      (Rmin (coeff mem "ms" i) (coeff mem "grad" i * coeff mem "grad" i)
       <= coeff mem' "ms" i
       <= Rmax (coeff mem "ms" i) (coeff mem "grad" i * coeff mem "grad" i))%R ∧
      coeff mem' "var" i = (coeff mem "var" i - coeff mem' "mom" i)%R.
Proof.
  intros Hv Hs Hm Hg HN Hrho. eexists.
  split; [by apply (ApplyRMSProp_result b N)|].
  intros i Hi.
  rewrite (coeff_pointwise_array _ _ "ms" (rmsprop_ms mem) N) by done.
  rewrite (coeff_pointwise_array _ _ "mom" (rmsprop_mom_eigen mem) N) by done.
  rewrite (coeff_pointwise_array _ _ "var"
             (fun i => coeff mem "var" i - rmsprop_mom_eigen mem i)%S N) by done.
  split; [|reflexivity].
  exact (convex_step (coeff mem "ms" i)
           (coeff mem "grad" i * coeff mem "grad" i) _ Hrho).
Qed.

Lemma rmsprop_ms_between_witness :
  has_array rmsprop_example "var" 1 ∧ has_array rmsprop_example "ms" 1 ∧
  has_array rmsprop_example "mom" 1 ∧ has_array rmsprop_example "grad" 1 ∧
  (ROCm = ROCm → (0 < Z.of_nat 1 < 2 ^ 31)%Z) ∧
  (0 <= coeff rmsprop_example "rho" 0 <= 1)%R ∧
  ∃ mem',
    ApplyRMSProp ROCm rmsprop_example = Done mem' ∧
    ∀ i, i < 1 →
      (Rmin (coeff rmsprop_example "ms" i)
            (coeff rmsprop_example "grad" i * coeff rmsprop_example "grad" i)
       <= coeff mem' "ms" i
       <= Rmax (coeff rmsprop_example "ms" i)
               (coeff rmsprop_example "grad" i * coeff rmsprop_example "grad" i))%R ∧
      coeff mem' "var" i = (coeff rmsprop_example "var" i - coeff mem' "mom" i)%R.
Proof.
  assert (has_array rmsprop_example "var" 1) as Hv by (eexists; split; reflexivity).
  assert (has_array rmsprop_example "ms" 1) as Hs by (eexists; split; reflexivity).
  assert (has_array rmsprop_example "mom" 1) as Hm by (eexists; split; reflexivity).
  assert (has_array rmsprop_example "grad" 1) as Hg by (eexists; split; reflexivity).
  assert (ROCm = ROCm → (0 < Z.of_nat 1 < 2 ^ 31)%Z) as HN by (intros; lia).
  assert (0 <= coeff rmsprop_example "rho" 0 <= 1)%R as Hrho
    by (change (0 <= 9/10 <= 1)%R; lra).
  repeat (split; [assumption|]).
  exact (rmsprop_ms_between ROCm 1 rmsprop_example Hv Hs Hm Hg HN Hrho).
Defined.

(** X8. Over the reals, on either backend (on ROCm for a count
    [0 < N < 2^31]), with [rho] in [[0,1]], a CenteredRMSProp call keeps
    [mg[i]^2 <= ms[i]] wherever it held before the call: in exact
    arithmetic [ms - mg^2 + epsilon] is then at least [epsilon]. *)
Theorem centered_variance_kept (b : backend) (N : nat) (mem : Mem R) :
  has_array mem "var" N → has_array mem "mg" N → has_array mem "ms" N →
  has_array mem "mom" N → has_array mem "grad" N →
  (b = ROCm → (0 < Z.of_nat N < 2 ^ 31)%Z) →
  (0 <= coeff mem "rho" 0 <= 1)%R →
  ∃ mem',
    ApplyCenteredRMSProp b mem = Done mem' ∧
    ∀ i, i < N →
      (coeff mem "mg" i * coeff mem "mg" i <= coeff mem "ms" i)%R →
      (coeff mem' "mg" i * coeff mem' "mg" i <= coeff mem' "ms" i)%R.
Proof.
  intros Hv Hg' Hs Hm Hg HN Hrho. eexists.
  split; [by apply (ApplyCenteredRMSProp_result b N)|].
  intros i Hi Hvar.
  rewrite (coeff_pointwise_array _ _ "ms" (rmsprop_ms mem) N) by done.
  rewrite (coeff_pointwise_array _ _ "mg" (centered_mg mem) N) by done.
  unfold rmsprop_ms, centered_mg. simpl.
  set (rho := coeff mem "rho" 0) in *. set (g := coeff mem "grad" i).
  set (ms := coeff mem "ms" i) in *. set (mg := coeff mem "mg" i) in *.
  assert ((ms + (1 - rho) * (g * g - ms)) -
          (mg + (1 - rho) * (g - mg)) * (mg + (1 - rho) * (g - mg)) =
          rho * (ms - mg * mg) + rho * (1 - rho) * ((mg - g) * (mg - g)))%R as Hid
    by ring.
  assert (0 <= rho * (ms - mg * mg))%R by (apply Rmult_le_pos; lra).
  assert (0 <= rho * (1 - rho) * ((mg - g) * (mg - g)))%R.
  { apply Rmult_le_pos; [apply Rmult_le_pos; lra|].
    pose proof (Rle_0_sqr (mg - g)) as Hsq. unfold Rsqr in Hsq. lra. }
  lra.
Qed.

Lemma centered_variance_kept_witness :
  has_array centered_example "var" 1 ∧ has_array centered_example "mg" 1 ∧
  has_array centered_example "ms" 1 ∧ has_array centered_example "mom" 1 ∧
  has_array centered_example "grad" 1 ∧
  (ROCm = ROCm → (0 < Z.of_nat 1 < 2 ^ 31)%Z) ∧
  (0 <= coeff centered_example "rho" 0 <= 1)%R ∧
  ∃ mem',
    ApplyCenteredRMSProp ROCm centered_example = Done mem' ∧
    ∀ i, i < 1 →
      (coeff centered_example "mg" i * coeff centered_example "mg" i
       <= coeff centered_example "ms" i)%R →
      (coeff mem' "mg" i * coeff mem' "mg" i <= coeff mem' "ms" i)%R.
Proof.
  assert (has_array centered_example "var" 1) as Hv by (eexists; split; reflexivity).
  assert (has_array centered_example "mg" 1) as Hg' by (eexists; split; reflexivity).
  assert (has_array centered_example "ms" 1) as Hs by (eexists; split; reflexivity).
  assert (has_array centered_example "mom" 1) as Hm by (eexists; split; reflexivity).
  assert (has_array centered_example "grad" 1) as Hg by (eexists; split; reflexivity).
  assert (ROCm = ROCm → (0 < Z.of_nat 1 < 2 ^ 31)%Z) as HN by (intros; lia).
  assert (0 <= coeff centered_example "rho" 0 <= 1)%R as Hrho
    by (change (0 <= 9/10 <= 1)%R; lra).
  repeat (split; [assumption|]).
  exact (centered_variance_kept ROCm 1 centered_example Hv Hg' Hs Hm Hg HN Hrho).
Defined.

Lemma Done_inj {M : Type} (a b : M) : Done a = Done b → a = b.
Proof.
  intros Heq.
  exact (f_equal (fun o => match o with Done m => m | _ => a end) Heq).
Qed.

(** X9. After an AdaMax call that returns, every [v[i]] is at least
    [|grad[i]|] and at least [beta2 * v[i]] of before the call; it is never
    negative. *)
Theorem adamax_v_bounds (N : nat) (mem mem' : Mem R) :
  has_array mem "var" N → has_array mem "m" N → has_array mem "v" N →
  ApplyAdaMax mem = Done mem' →
  ∀ i, i < N →
    (Rabs (coeff mem "grad" i) <= coeff mem' "v" i)%R ∧
    (coeff mem "beta2" 0 * coeff mem "v" i <= coeff mem' "v" i)%R ∧
    (0 <= coeff mem' "v" i)%R.
Proof.
  intros Hv Hm Hw Hdone i Hi.
  assert (coeff mem' "v" i = adamax_v mem i) as ->.
  { destruct (decide (N ≤ dimension mem "lr")) as [Hl|Hl];
      [destruct (decide (N ≤ dimension mem "epsilon")) as [He|He]|].
    - rewrite (ApplyAdaMax_result N) in Hdone by done.
      apply Done_inj in Hdone as <-.
      by apply (coeff_pointwise_array _ _ _ _ N).
    - rewrite (ApplyAdaMax_Undefined N mem (dimension mem "epsilon")) in Hdone
        by (done || lia || (right; lia)).
      discriminate Hdone.
    - rewrite (ApplyAdaMax_Undefined N mem (dimension mem "lr")) in Hdone
        by (done || lia || (left; lia)).
      discriminate Hdone. }
  unfold adamax_v. simpl.
  pose proof (Rmax_l (coeff mem "beta2" 0 * coeff mem "v" i)
                (Rabs (coeff mem "grad" i))).
  pose proof (Rmax_r (coeff mem "beta2" 0 * coeff mem "v" i)
                (Rabs (coeff mem "grad" i))).
  pose proof (Rabs_pos (coeff mem "grad" i)).
  repeat split; lra.
Qed.

Lemma adamax_v_bounds_witness :
  has_array (adamax_input [0%R] [0%R]) "var" 2 ∧
  has_array (adamax_input [0%R] [0%R]) "m" 2 ∧
  has_array (adamax_input [0%R] [0%R]) "v" 2 ∧
  ApplyAdaMax (adamax_input [0%R] [0%R]) =
    Done (pointwise (adamax_table (adamax_input [0%R] [0%R]))
            (adamax_input [0%R] [0%R])) ∧
  (0 <= coeff (pointwise (adamax_table (adamax_input [0%R] [0%R]))
                 (adamax_input [0%R] [0%R])) "v" 1)%R.
Proof.
  assert (has_array (adamax_input [0%R] [0%R]) "var" 2) as Hv
    by (eexists; split; reflexivity).
  assert (has_array (adamax_input [0%R] [0%R]) "m" 2) as Hm
    by (eexists; split; reflexivity).
  assert (has_array (adamax_input [0%R] [0%R]) "v" 2) as Hw
    by (eexists; split; reflexivity).
  assert (ApplyAdaMax (adamax_input [0%R] [0%R]) =
          Done (pointwise (adamax_table (adamax_input [0%R] [0%R]))
                  (adamax_input [0%R] [0%R]))) as Hdone.
  { apply (ApplyAdaMax_result 2); try assumption;
      apply Nat.eq_le_incl; reflexivity. }
  repeat (split; [assumption|]).
  exact (proj2 (proj2 (adamax_v_bounds 2 _ _ Hv Hm Hw Hdone 1
                         (Nat.lt_succ_diag_r 1)))).
Defined.

(** ** Functors that coincide in exact arithmetic *)

(** X10. With [momentum = 0], Momentum and KerasMomentum, under either
    setting of [use_nesterov], change [var] exactly as GradientDescent
    does. *)
Theorem momentum_zero_is_gradient_descent (use_nesterov : bool) (N : nat)
    (mem : Mem R) :
  has_array mem "var" N → has_array mem "accum" N →
  coeff mem "momentum" 0 = 0%R →
  ApplyMomentum use_nesterov mem !! "var" = ApplyGradientDescent mem !! "var" ∧
  ApplyKerasMomentum use_nesterov mem !! "var" = ApplyGradientDescent mem !! "var".
Proof.
  intros Hv Ha Hmom.
  rewrite (ApplyMomentum_result N), (ApplyKerasMomentum_result N),
    (ApplyGradientDescent_result N) by done.
  split.
  - apply (lookup_pointwise_ext _ _ _ _ (momentum_var use_nesterov mem)
             (fun i => coeff mem "var" i - coeff mem "lr" 0 * coeff mem "grad" i)%S N);
      try done.
    intros i Hi. unfold momentum_var, momentum_accum. rewrite Hmom.
    destruct use_nesterov; simpl; ring.
  - apply (lookup_pointwise_ext _ _ _ _ (keras_var use_nesterov mem)
             (fun i => coeff mem "var" i - coeff mem "lr" 0 * coeff mem "grad" i)%S N);
      try done.
    intros i Hi. unfold keras_var, keras_accum. rewrite Hmom.
    destruct use_nesterov; simpl; ring.
Qed.

Lemma momentum_zero_is_gradient_descent_witness :
  has_array momentum_example "var" 1 ∧ has_array momentum_example "accum" 1 ∧
  coeff momentum_example "momentum" 0 = 0%R ∧
  ApplyMomentum true momentum_example !! "var" =
    ApplyGradientDescent momentum_example !! "var".
Proof.
  assert (has_array momentum_example "var" 1) as Hv by (eexists; split; reflexivity).
  assert (has_array momentum_example "accum" 1) as Ha by (eexists; split; reflexivity).
  assert (coeff momentum_example "momentum" 0 = 0%R) as Hmom by reflexivity.
  repeat (split; [assumption|]).
  exact (proj1 (momentum_zero_is_gradient_descent true 1 momentum_example Hv Ha Hmom)).
Defined.

(** X11. With [sign_decay = 0] PowerSign changes [var] exactly as
    GradientDescent does, and AddSign as GradientDescent with the learning
    rate [lr * alpha]. *)
Theorem sign_decay_zero (N : nat) (mem : Mem R) :
  has_array mem "var" N → has_array mem "m" N →
  coeff mem "sign_decay" 0 = 0%R →
  ApplyPowerSign mem !! "var" = ApplyGradientDescent mem !! "var" ∧
  ∀ i, i < N →
    coeff (ApplyAddSign mem) "var" i =
    (coeff mem "var" i - coeff mem "lr" 0 * coeff mem "alpha" 0 * coeff mem "grad" i)%R.
Proof.
  intros Hv Hm Hsd.
  rewrite (ApplyPowerSign_result N), (ApplyAddSign_result N),
    (ApplyGradientDescent_result N) by done.
  split.
  - apply (lookup_pointwise_ext _ _ _ _ (powersign_var mem)
             (fun i => coeff mem "var" i - coeff mem "lr" 0 * coeff mem "grad" i)%S N);
      try done.
    intros i Hi. unfold powersign_var. rewrite Hsd.
    cbn [sc_exp R_Exp sc_mul sc_sub R_Scalar].
    replace (coeff mem "logbase" 0 * 0 * sign_gm mem i)%R with 0%R by ring.
    rewrite exp_0. ring.
  - intros i Hi.
    rewrite (coeff_pointwise_array _ _ "var" (addsign_var mem) N) by done.
    unfold addsign_var. rewrite Hsd. simpl. ring.
Qed.

Lemma sign_decay_zero_witness :
  has_array sign_example "var" 1 ∧ has_array sign_example "m" 1 ∧
  coeff sign_example "sign_decay" 0 = 0%R ∧
  ApplyPowerSign sign_example !! "var" = ApplyGradientDescent sign_example !! "var".
Proof.
  assert (has_array sign_example "var" 1) as Hv by (eexists; split; reflexivity).
  assert (has_array sign_example "m" 1) as Hm by (eexists; split; reflexivity).
  assert (coeff sign_example "sign_decay" 0 = 0%R) as Hsd by reflexivity.
  repeat (split; [assumption|]).
  exact (proj1 (sign_decay_zero 1 sign_example Hv Hm Hsd)).
Defined.

(** X12. Where no [vhat[i]] exceeds the new [v[i]], AdamWithAmsgrad changes
    [var] exactly as Adam without Nesterov does, and leaves [vhat] equal to
    the new [v]. *)
Theorem amsgrad_is_adam (N : nat) (mem : Mem R) :
  has_array mem "var" N → has_array mem "m" N →
  has_array mem "v" N → has_array mem "vhat" N →
  (∀ i, i < N → (coeff mem "vhat" i <= coeff (ApplyAdam false mem) "v" i)%R) →
  ApplyAdamWithAmsgrad mem !! "var" = ApplyAdam false mem !! "var" ∧
  ∀ i, i < N →
    coeff (ApplyAdamWithAmsgrad mem) "vhat" i = coeff (ApplyAdam false mem) "v" i.
Proof.
  intros Hv Hm Hw Hh Hle.
  rewrite (ApplyAdam_result N) in * by done.
  rewrite (ApplyAdamWithAmsgrad_result N) by done.
  assert (∀ i, i < N → amsgrad_vhat mem i = adam_v mem i) as Hvhat.
  { intros i Hi. specialize (Hle i Hi).
    rewrite (coeff_pointwise_array _ _ "v" (adam_v mem) N) in Hle by done.
    unfold amsgrad_vhat. simpl. by apply Rmax_right. }
  split.
  - apply (lookup_pointwise_ext _ _ _ _ (amsgrad_var mem) (adam_var false mem) N);
      try done.
    intros i Hi. unfold amsgrad_var, adam_var. by rewrite Hvhat.
  - intros i Hi.
    rewrite (coeff_pointwise_array _ _ "vhat" (amsgrad_vhat mem) N) by done.
    rewrite (coeff_pointwise_array _ _ "v" (adam_v mem) N) by done.
    by apply Hvhat.
Qed.

(** AdamWithAmsgrad on the Adam scenario with [vhat = [0]]. *)
Lemma amsgrad_is_adam_witness :
  has_array (<["vhat" := [0%R]]> (adam_scenario 1)) "var" 1 ∧
  ApplyAdamWithAmsgrad (<["vhat" := [0%R]]> (adam_scenario 1)) !! "var" =
    ApplyAdam false (<["vhat" := [0%R]]> (adam_scenario 1)) !! "var".
Proof.
  set (mem := <["vhat" := [0%R]]> (adam_scenario 1)).
  assert (has_array mem "var" 1) as Hv by (eexists; split; reflexivity).
  assert (has_array mem "m" 1) as Hm by (eexists; split; reflexivity).
  assert (has_array mem "v" 1) as Hw by (eexists; split; reflexivity).
  assert (has_array mem "vhat" 1) as Hh by (eexists; split; reflexivity).
  assert (∀ i, i < 1 → (coeff mem "vhat" i <= coeff (ApplyAdam false mem) "v" i)%R)
    as Hle.
  { intros i Hi. rewrite (ApplyAdam_result 1) by done.
    rewrite (coeff_pointwise_array _ _ "v" (adam_v mem) 1) by done.
    assert (i = 0) as -> by lia.
    change (0 <= 0 + (1 - 999/1000) * (1 * 1 - 0))%R. lra. }
  split; [exact Hv|].
  exact (proj1 (amsgrad_is_adam 1 mem Hv Hm Hw Hh Hle)).
Defined.

(** ** The hand-written square roots as square roots *)

Section roots_squared.
Local Open Scope R_scope.

Lemma root2_sqr_bounds :
  1 - 2 / 10000000000000000 < 2 * (root2 * root2) < 1.
Proof. rewrite root2_R. lra. Qed.

Lemma impl_sqrt_complex_scaled (x : complex R) :
  impl_sqrt_complex x =
  Complex (real (sqrt_of_spec x) * root2_excess)
          (imag (sqrt_of_spec x) * root2_excess).
Proof.
  rewrite impl_sqrt_complex_R. unfold sqrt_of_spec. cbn [real imag].
  set (mod_x := sqrt (real x * real x + imag x * imag x)).
  rewrite (sqrt_half (mod_x + real x)), (sqrt_half (mod_x - real x)).
  unfold root2_excess. f_equal; ring.
Qed.

Lemma root2_excess_sqr : root2_excess * root2_excess = 2 * (root2 * root2).
Proof.
  unfold root2_excess.
  replace (root2 * sqrt 2 * (root2 * sqrt 2))
    with (root2 * root2 * (sqrt 2 * sqrt 2)) by ring.
  rewrite sqrt_sqrt by lra. ring.
Qed.

Lemma modulus_positive (re im : R) :
  re ≠ 0 ∨ im ≠ 0 → 0 < sqrt (re * re + im * im).
Proof.
  intros Hx. apply sqrt_lt_R0.
  pose proof (Rle_0_sqr re) as Hr. pose proof (Rle_0_sqr im) as Hi.
  unfold Rsqr in *. destruct Hx as [Hx|Hx].
  - assert (0 < re * re) by (destruct (Rtotal_order re 0) as [?|[?|?]]; nra). lra.
  - assert (0 < im * im) by (destruct (Rtotal_order im 0) as [?|[?|?]]; nra). lra.
Qed.

End roots_squared.

(** X13. In exact arithmetic the square of [impl_sqrt(x)] is [x] times
    [2 * root2^2], a real factor between [1 - 2e-16] and [1]: [impl_sqrt]
    is a square root of [x] up to the last digit of its literal. *)
Theorem impl_sqrt_squared (x : complex R) :
  Cmul (impl_sqrt_complex x) (impl_sqrt_complex x) =
    Complex (2 * (root2 * root2) * real x)%R (2 * (root2 * root2) * imag x)%R ∧
  (1 - 2 / 10000000000000000 < 2 * (root2 * root2) < 1)%R.
Proof.
  split; [|apply root2_sqr_bounds].
  rewrite impl_sqrt_complex_scaled.
  pose proof (sqrt_of_spec_sqr x) as Hsq.
  destruct (sqrt_of_spec x) as [a b]. destruct x as [re im].
  unfold Cmul in *. cbn [real imag] in *.
  apply (f_equal real) in Hsq as Hre. apply (f_equal imag) in Hsq as Him.
  cbn [real imag] in Hre, Him. rewrite <- root2_excess_sqr.
  f_equal.
  - replace (a * root2_excess * (a * root2_excess) -
             b * root2_excess * (b * root2_excess))%R
      with (root2_excess * root2_excess * (a * a - b * b))%R by ring.
    by rewrite Hre.
  - replace (a * root2_excess * (b * root2_excess) +
             b * root2_excess * (a * root2_excess))%R
      with (root2_excess * root2_excess * (a * b + b * a))%R by ring.
    by rewrite Him.
Qed.

(** X14. [impl_sqrt] takes the principal branch: the real part of the
    result is never negative; a real [x >= 0] gives a real result and a
    real [x <= 0] a result on the non-negative imaginary axis. *)
Theorem impl_sqrt_principal (x : complex R) :
  (0 <= real (impl_sqrt_complex x))%R ∧
  (imag x = 0%R → (0 <= real x)%R →
   impl_sqrt_complex x = Complex (sqrt (2 * real x) * root2)%R 0%R) ∧
  (imag x = 0%R → (real x <= 0)%R →
   impl_sqrt_complex x = Complex 0%R (sqrt (2 * - real x) * root2)%R).
Proof.
  rewrite impl_sqrt_complex_R. destruct x as [re im]. cbn [real imag].
  pose proof root2_pos as Hr.
  split; [|split].
  - apply Rmult_le_pos; [apply sqrt_pos|lra].
  - intros -> Hre.
    replace (re * re + 0 * 0)%R with (re * re)%R by ring.
    rewrite sqrt_square by done.
    replace (re - re)%R with 0%R by ring. rewrite sqrt_0.
    replace (re + re)%R with (2 * re)%R by ring. f_equal. ring.
  - intros -> Hre.
    replace (re * re + 0 * 0)%R with (- re * - re)%R by ring.
    rewrite sqrt_square by lra.
    replace (- re + re)%R with 0%R by ring. rewrite sqrt_0.
    replace (- re - re)%R with (2 * - re)%R by ring.
    unfold branch_sign. destruct (Rle_dec 0 0); [|lra]. f_equal; ring.
Qed.

Lemma impl_sqrt_principal_witness :
  imag (Complex (-1)%R 0%R) = 0%R ∧ (real (Complex (-1)%R 0%R) <= 0)%R ∧
  impl_sqrt_complex (Complex (-1)%R 0%R) =
    Complex 0%R (sqrt (2 * - real (Complex (-1)%R 0%R)) * root2)%R.
Proof.
  assert (imag (Complex (-1)%R 0%R) = 0%R) as Him by reflexivity.
  assert (real (Complex (-1)%R 0%R) <= 0)%R as Hre by (simpl; lra).
  repeat (split; [assumption|]).
  exact (proj2 (proj2 (impl_sqrt_principal (Complex (-1)%R 0%R))) Him Hre).
Defined.

Section rsqrt_squared.
Local Open Scope R_scope.

(** The quantities [impl_rsqrt] is built from. *)
Lemma rsqrt_parts (re im : R) :
  re ≠ 0 ∨ im ≠ 0 →
  let r := / sqrt (re * re + im * im) in
  0 < r ∧ r * r * (re * re + im * im) = 1 ∧
  0 <= r * (1 + re * r) ∧ 0 <= r * (1 - re * r) ∧
  sqrt (r * (1 + re * r)) * sqrt (r * (1 - re * r)) * branch_sign im = r * r * im.
Proof.
  intros Hx r. pose proof (modulus_positive re im Hx) as Hm.
  set (m := sqrt (re * re + im * im)) in *.
  assert (0 <= re * re + im * im) as Hnn.
  { pose proof (Rle_0_sqr re) as H1. pose proof (Rle_0_sqr im) as H2.
    unfold Rsqr in *. lra. }
  assert (m * m = re * re + im * im) as Hm2 by (by apply sqrt_sqrt).
  assert (0 < r) as Hr by (by apply Rinv_0_lt_compat).
  assert (r * m = 1) as Hrm by (subst r; field; lra).
  assert (r * r * (re * re + im * im) = 1) as Hr2.
  { rewrite <- Hm2. replace (r * r * (m * m)) with ((r * m) * (r * m)) by ring.
    rewrite Hrm. ring. }
  assert (re * r * (re * r) <= 1) as Hle.
  { pose proof (Rle_0_sqr (im * r)) as H2. unfold Rsqr in H2. nra. }
  assert (-1 <= re * r <= 1) as Hb by nra.
  assert (0 <= r * (1 + re * r)) as Hp by (apply Rmult_le_pos; lra).
  assert (0 <= r * (1 - re * r)) as Hq by (apply Rmult_le_pos; lra).
  repeat split; try done.
  rewrite <- sqrt_mult_alt by done.
  assert (r * (1 + re * r) * (r * (1 - re * r)) = (r * r * im) * (r * r * im)) as ->.
  { replace (r * (1 + re * r) * (r * (1 - re * r)))
      with (r * r * (1 - r * r * (re * re))) by ring.
    replace (1 - r * r * (re * re)) with (r * r * (im * im)) by lra. ring. }
  unfold branch_sign. destruct (Rle_dec 0 im) as [Hi|Hi].
  - rewrite sqrt_square by (apply Rmult_le_pos; [nra|done]). ring.
  - replace (r * r * im * (r * r * im)) with ((- (r * r * im)) * (- (r * r * im)))
      by ring.
    rewrite sqrt_square by nra. ring.
Qed.

End rsqrt_squared.

(** X15. In exact arithmetic and double precision, for [x] other than
    zero, the square of [impl_rsqrt(x)] times [x] is [2 * root2^2], a real
    number between [1 - 2e-16] and [1]: [impl_rsqrt] is a reciprocal square
    root up to the last digit of its literal. *)
Theorem impl_rsqrt_squared (x : complex R) :
  real x ≠ 0%R ∨ imag x ≠ 0%R →
  Cmul (Cmul (impl_rsqrt_complex false x) (impl_rsqrt_complex false x)) x =
    Complex (2 * (root2 * root2))%R 0%R ∧
  (1 - 2 / 10000000000000000 < 2 * (root2 * root2) < 1)%R.
Proof.
  intros Hx. split; [|apply root2_sqr_bounds].
  destruct x as [re im]. cbn [real imag] in Hx.
  destruct (rsqrt_parts re im Hx) as (Hr & Hr2 & Hp & Hq & Hpq).
  unfold impl_rsqrt_complex.
  cbn [real imag andb sc_rsqrt sc_sqrt sc_mul sc_add sc_sub sc_one sc_zero R_Scalar
       rs_lit rs_geb R_RealScalar].
  set (r := (/ sqrt (re * re + im * im))%R) in *.
  set (A := sqrt (r * (1 + re * r))) in *. set (B := sqrt (r * (1 - re * r))) in *.
  assert (A * A = r * (1 + re * r))%R as HA by (by apply sqrt_sqrt).
  assert (B * B = r * (1 - re * r))%R as HB by (by apply sqrt_sqrt).
  assert ((if Rgeb im 0 then Q2R (-1) else Q2R 1) = - branch_sign im)%R as ->.
  { unfold Rgeb, branch_sign. rewrite lit_1, lit_m1.
    destruct (Rle_dec 0 im); lra. }
  assert (branch_sign im * branch_sign im = 1)%R as Hs
    by (unfold branch_sign; destruct (Rle_dec 0 im); lra).
  unfold Cmul. cbn [real imag]. f_equal.
  - replace ((A * root2 * (A * root2) -
              B * root2 * - branch_sign im * (B * root2 * - branch_sign im)) * re -
             (A * root2 * (B * root2 * - branch_sign im) +
              B * root2 * - branch_sign im * (A * root2)) * im)%R
      with (root2 * root2 *
            ((A * A - B * B * (branch_sign im * branch_sign im)) * re +
             2 * (A * B * branch_sign im) * im))%R by ring.
    rewrite HA, HB, Hs, Hpq.
    replace ((r * (1 + re * r) - r * (1 - re * r) * 1) * re + 2 * (r * r * im) * im)%R
      with (2 * (r * r * (re * re + im * im)))%R by ring.
    rewrite Hr2. ring.
  - replace ((A * root2 * (A * root2) -
              B * root2 * - branch_sign im * (B * root2 * - branch_sign im)) * im +
             (A * root2 * (B * root2 * - branch_sign im) +
              B * root2 * - branch_sign im * (A * root2)) * re)%R
      with (root2 * root2 *
            ((A * A - B * B * (branch_sign im * branch_sign im)) * im -
             2 * (A * B * branch_sign im) * re))%R by ring.
    rewrite HA, HB, Hs, Hpq. ring.
Qed.

Lemma impl_rsqrt_squared_witness :
  (real (Complex 2%R 0%R) ≠ 0%R ∨ imag (Complex 2%R 0%R) ≠ 0%R) ∧
  Cmul (Cmul (impl_rsqrt_complex false (Complex 2%R 0%R))
             (impl_rsqrt_complex false (Complex 2%R 0%R))) (Complex 2%R 0%R) =
  Complex (2 * (root2 * root2))%R 0%R.
Proof.
  assert (real (Complex 2%R 0%R) ≠ 0%R ∨ imag (Complex 2%R 0%R) ≠ 0%R) as Hx
    by (left; simpl; lra).
  split; [exact Hx|].
  exact (proj1 (impl_rsqrt_squared (Complex 2%R 0%R) Hx)).
Defined.

Section helper_error.
Local Open Scope R_scope.

(** [1 - t] against the polynomial at [1 - t^2], for [t] near 1. *)
Lemma rsqrt_helper_near_one (t : R) :
  98 / 100 < t <= 1 →
  let u := 1 - t * t in
  0 <= (1 - t) - rsqrt_helper u <= u * u * u * u / 20.
Proof.
  intros Ht u. subst u. rewrite rsqrt_helper_R.
  set (w := 1 - t). assert (0 <= w < 2 / 100) as Hw by (subst w; lra).
  replace (1 - t * t) with (w * (2 - w)) by (subst w; ring).
  replace (w - (1 / 2 * (w * (2 - w)) + 1 / 8 * (w * (2 - w)) * (w * (2 - w)) +
                1 / 16 * (w * (2 - w)) * (w * (2 - w)) * (w * (2 - w))))
    with (w * w * (w * w) * ((10 - 6 * w + w * w) / 16)) by field.
  replace (w * (2 - w) * (w * (2 - w)) * (w * (2 - w)) * (w * (2 - w)) / 20)
    with (w * w * (w * w) * ((2 - w) * (2 - w) * ((2 - w) * (2 - w)) / 20)) by field.
  assert (0 <= w * w * (w * w)) as Hw4.
  { apply Rmult_le_pos; nra. }
  assert (0 <= (10 - 6 * w + w * w) / 16) as Hp by nra.
  assert ((10 - 6 * w + w * w) / 16 <= (2 - w) * (2 - w) * ((2 - w) * (2 - w)) / 20)
    as Hpq.
  { assert (392 / 100 <= (2 - w) * (2 - w)) as Hs by nra.
    assert (392 / 100 * (392 / 100) <= (2 - w) * (2 - w) * ((2 - w) * (2 - w)))
      by (apply Rmult_le_compat; lra).
    nra. }
  split.
  - by apply Rmult_le_pos.
  - by apply Rmult_le_compat_l.
Qed.

End helper_error.

(** X16. Where [impl_rsqrt] for float takes the polynomial, the polynomial
    is at most [u^4/20] below the factor it replaces, [u = im^2*r^2 < 0.04]
    (so less than [1.3e-7]): below [1 - re*r] where [re*r > 0.98] and below
    [1 + re*r] where [re*r < -0.98]. *)
Theorem rsqrt_helper_error (re im : R) :
  let r := (/ sqrt (re * re + im * im))%R in
  let u := (im * im * r * r)%R in
  ((98 / 100 < re * r)%R →
   (0 <= u < 4 / 100)%R ∧
   (0 <= (1 - re * r) - rsqrt_helper u <= u * u * u * u / 20)%R) ∧
  ((re * r < -98 / 100)%R →
   (0 <= u < 4 / 100)%R ∧
   (0 <= (1 + re * r) - rsqrt_helper u <= u * u * u * u / 20)%R).
Proof.
  intros r u.
  assert ((98 / 100 < re * r ∨ re * r < -98 / 100)%R →
          (r * r * (re * re + im * im) = 1)%R) as Hunit.
  { intros Hreg. destruct (Req_dec re 0) as [->|Hre].
    - rewrite Rmult_0_l in Hreg. lra.
    - by destruct (rsqrt_parts re im (or_introl Hre)) as (_ & Hr2 & _). }
  assert (∀ t : R, (r * r * (re * re + im * im) = 1)%R → t = (re * r)%R →
                   u = (1 - t * t)%R) as Hu.
  { intros t Hr2 ->. subst u. lra. }
  split; intros Hreg.
  - specialize (Hunit (or_introl Hreg)).
    assert (re * r <= 1)%R as Hle.
    { pose proof (Rle_0_sqr (im * r)) as H2. unfold Rsqr in H2. nra. }
    rewrite (Hu (re * r)%R Hunit eq_refl).
    split; [nra|]. apply rsqrt_helper_near_one. lra.
  - specialize (Hunit (or_intror Hreg)).
    assert (-1 <= re * r)%R as Hle.
    { pose proof (Rle_0_sqr (im * r)) as H2. unfold Rsqr in H2. nra. }
    assert (u = 1 - - (re * r) * - (re * r))%R as ->
      by (rewrite (Hu (re * r)%R Hunit eq_refl); ring).
    split; [nra|].
    replace (1 + re * r)%R with (1 - - (re * r))%R by ring.
    apply rsqrt_helper_near_one. lra.
Qed.

Lemma rsqrt_helper_error_witness :
  (98 / 100 < 60 * / sqrt (60 * 60 + 11 * 11))%R ∧
  (0 <= (1 - 60 * / sqrt (60 * 60 + 11 * 11)) -
        rsqrt_helper (11 * 11 * / sqrt (60 * 60 + 11 * 11) *
                      / sqrt (60 * 60 + 11 * 11)))%R.
Proof.
  assert (98 / 100 < 60 * / sqrt (60 * 60 + 11 * 11))%R as Hreg.
  { replace (60 * 60 + 11 * 11)%R with (61 * 61)%R by lra.
    rewrite sqrt_square by lra. lra. }
  split; [exact Hreg|].
  exact (proj1 (proj2 (proj1 (rsqrt_helper_error 60 11) Hreg))).
Defined.

(** ** The kernels under any schedule of their threads *)

Section where_facts.
Context {T : Type} `{Scalar T}.
Implicit Types (mem : Mem T) (x k : string) (P : string → nat → bool)
  (F : @elementwise T).

Lemma length_upd_where p (f : nat → T) l : length (upd_where p f l) = length l.
Proof. apply length_imap. Qed.

Lemma lookup_pointwise_where P F mem k :
  pointwise_where P F mem !! k =
  (fun l => match F k with Some f => upd_where (P k) f l | None => l end) <$> mem !! k.
Proof.
  unfold pointwise_where. rewrite map_lookup_imap. by destruct (mem !! k).
Qed.

Lemma flat_pointwise_where P F mem k :
  flat (pointwise_where P F mem) k =
  match F k with Some f => upd_where (P k) f (flat mem k) | None => flat mem k end.
Proof.
  unfold flat. rewrite lookup_pointwise_where.
  destruct (mem !! k); simpl; [done|]. by destruct (F k).
Qed.

Lemma coeff_pointwise_where_new P F mem k f i :
  F k = Some f → P k i = true → i < dimension mem k →
  coeff (pointwise_where P F mem) k i = f i.
Proof.
  intros HF HP Hi. unfold coeff. rewrite flat_pointwise_where, HF.
  apply list_lookup_total_correct. unfold upd_where.
  rewrite list_lookup_imap, (list_lookup_lookup_total_lt _ i Hi). simpl.
  by rewrite HP.
Qed.

Lemma coeff_pointwise_where_old P F mem k i :
  F k = None ∨ P k i = false →
  coeff (pointwise_where P F mem) k i = coeff mem k i.
Proof.
  intros HF. unfold coeff. rewrite flat_pointwise_where.
  destruct (F k) as [f|] eqn:Hk; [|done].
  destruct HF as [?|HP]; [done|].
  rewrite !list_lookup_total_alt. unfold upd_where. rewrite list_lookup_imap.
  destruct (flat mem k !! i); simpl; [|done]. by rewrite HP.
Qed.

Lemma pointwise_where_none F mem : pointwise_where (handled []) F mem = mem.
Proof.
  apply map_eq. intros k. rewrite lookup_pointwise_where.
  destruct (mem !! k) as [l|]; simpl; [|done]. destruct (F k); [|done].
  f_equal. apply list_eq. intros i. unfold upd_where. rewrite list_lookup_imap.
  by destruct (l !! i).
Qed.

Lemma pointwise_where_ext P P' F mem :
  (∀ k i, is_Some (F k) → P k i = P' k i) →
  pointwise_where P F mem = pointwise_where P' F mem.
Proof.
  intros HP. apply map_eq. intros k. rewrite !lookup_pointwise_where.
  destruct (mem !! k); simpl; [|done]. destruct (F k) eqn:Hk; [|done].
  f_equal. apply imap_ext. intros i a _. by rewrite (HP k i) by (by rewrite Hk).
Qed.

Lemma pointwise_where_all P F mem :
  (∀ k i, is_Some (F k) → i < dimension mem k → P k i = true) →
  pointwise_where P F mem = pointwise F mem.
Proof.
  intros HP. apply map_eq. intros k.
  rewrite lookup_pointwise_where, lookup_pointwise.
  destruct (mem !! k) as [l|] eqn:Hl; simpl; [|done].
  destruct (F k) eqn:Hk; [|done]. f_equal. apply imap_ext. intros i a Hi.
  rewrite (HP k i); [done|by rewrite Hk|].
  unfold dimension, flat. rewrite Hl. by apply lookup_lt_Some in Hi.
Qed.

(** [x[n] = f n] handles element [n] of array [x]. *)
Lemma store_pointwise_where P F mem x f n a :
  F x = Some f → is_Some (mem !! x) → a = f n →
  store x n a (pointwise_where P F mem) = pointwise_where (mark P x n) F mem.
Proof.
  intros HF [l Hl] ->. unfold store. apply map_eq. intros k.
  rewrite lookup_insert, flat_pointwise_where, HF, !lookup_pointwise_where.
  case_decide as Hk.
  - subst k. rewrite HF. unfold flat. rewrite Hl. simpl. f_equal.
    apply list_eq. intros i. unfold upd_where, mark.
    destruct (decide (n = i)) as [->|Hne].
    + destruct (decide (i < length l)) as [Hi|Hi].
      * rewrite list_lookup_insert_eq by (by rewrite length_imap).
        rewrite list_lookup_imap, (list_lookup_lookup_total_lt l i Hi). simpl.
        by rewrite !decide_True by done.
      * rewrite list_insert_ge by (rewrite length_imap; lia).
        rewrite !list_lookup_imap. by rewrite (lookup_ge_None_2 l i) by lia.
    + rewrite list_lookup_insert_ne by done. rewrite !list_lookup_imap.
      destruct (l !! i); simpl; [|done].
      rewrite decide_True by done. by rewrite decide_False by done.
  - destruct (mem !! k); simpl; [|done]. destruct (F k); [|done].
    f_equal. apply imap_ext. intros i b _. unfold mark.
    by rewrite decide_False by done.
Qed.

Lemma handled_snoc (done : list nat) (n i : nat) (k : string) :
  handled (done ++ [n]) k i = if decide (i = n) then true else handled done k i.
Proof.
  unfold handled. case_decide as Hi.
  - subst. apply bool_decide_eq_true. apply elem_of_app. right.
    by apply list_elem_of_singleton.
  - apply bool_decide_ext. rewrite elem_of_app, list_elem_of_singleton. tauto.
Qed.

Lemma kernel_threads_snoc (order : list nat) (n : nat)
    (body : nat → Mem T → Mem T) mem :
  kernel_threads (order ++ [n]) body mem = body n (kernel_threads order body mem).
Proof. unfold kernel_threads. by rewrite foldl_snoc. Qed.

(** A schedule whose memory after the threads [done] is all of [F] on the
    elements [done]. *)
Lemma kernel_threads_inv F (order : list nat) (body : nat → Mem T → Mem T) mem :
  (∀ done n, n ∉ done → n ∈ order →
     body n (pointwise_where (handled done) F mem) =
     pointwise_where (handled (done ++ [n])) F mem) →
  NoDup order →
  kernel_threads order body mem = pointwise_where (handled order) F mem.
Proof.
  induction order as [|n order IH] using rev_ind; intros Hstep Hnd.
  - by rewrite pointwise_where_none.
  - apply NoDup_app in Hnd as (Hnd & Hn & _).
    rewrite kernel_threads_snoc, IH;
      [|intros; apply Hstep; [done|apply elem_of_app; by left]|done].
    apply Hstep.
    + intros Hin. apply (Hn n Hin). by apply list_elem_of_singleton.
    + apply elem_of_app. right. by apply list_elem_of_singleton.
Qed.

End where_facts.

Ltac solve_unhandled :=
  first [left; reflexivity
        | right; unfold mark, handled; repeat case_decide; try done;
          by apply bool_decide_eq_false_2].
Ltac solve_handled :=
  first [reflexivity
        | unfold mark; repeat case_decide; done
        | unfold dimension in *; lia].
Ltac read_unhandled :=
  repeat match goal with
  | |- context [coeff (pointwise_where ?P ?F ?m) ?k ?i] =>
      rewrite (coeff_pointwise_where_old P F m k i) by solve_unhandled
  end.
Ltac read_handled :=
  repeat match goal with
  | |- context [coeff (pointwise_where ?P ?F ?m) ?k ?i] =>
      erewrite (coeff_pointwise_where_new P F m k _ i);
      [ | reflexivity | solve_handled | solve_handled ]
  end.
Ltac read_threads := read_unhandled; read_handled.
Ltac write_thread :=
  erewrite store_pointwise_where; [ | reflexivity | eauto | reflexivity ].
Ltac thread_done :=
  apply pointwise_where_ext;
  let k := fresh "k" in let i := fresh "i" in
  intros k i; rewrite handled_snoc; unfold mark;
  cbv beta delta [adagrad_table adagradv2_table adadelta_table rmsprop_table
                  centered_table];
  repeat case_decide; subst; try done; try (by intros []).

Section threads_facts.
Context {T : Type} `{Scalar T} `{Impl T}.
Local Open Scope sc_scope.
Implicit Types (mem : Mem T).

Lemma Adagrad_thread L update_slots mem done n :
  has_array mem "var" L → has_array mem "accum" L → n < L → n ∉ done →
  ApplyAdagradKernel_body "var" "accum" "lr" "grad" update_slots n
    (pointwise_where (handled done) (adagrad_table impl_rsqrt update_slots mem) mem) =
  pointwise_where (handled (done ++ [n]))
    (adagrad_table impl_rsqrt update_slots mem) mem.
Proof.
  intros [Hv Hvn]%has_array_flat [Ha Han]%has_array_flat Hn Hdone.
  unfold ApplyAdagradKernel_body. destruct update_slots.
  - read_threads. write_thread. read_threads. write_thread. thread_done.
  - read_threads. write_thread. thread_done.
Qed.

Lemma AdagradV2_thread L update_slots mem done n :
  has_array mem "var" L → has_array mem "accum" L → n < L → n ∉ done →
  ApplyAdagradV2Kernel_body "var" "accum" "lr" "epsilon" "grad" update_slots n
    (pointwise_where (handled done) (adagradv2_table impl_sqrt update_slots mem) mem) =
  pointwise_where (handled (done ++ [n]))
    (adagradv2_table impl_sqrt update_slots mem) mem.
Proof.
  intros [Hv Hvn]%has_array_flat [Ha Han]%has_array_flat Hn Hdone.
  unfold ApplyAdagradV2Kernel_body. destruct update_slots.
  - read_threads. write_thread. read_threads. write_thread. thread_done.
  - read_threads. write_thread. thread_done.
Qed.

Lemma Adadelta_thread L mem done n :
  has_array mem "var" L → has_array mem "accum" L → has_array mem "accum_update" L →
  n < L → n ∉ done →
  ApplyAdadeltaKernel_body "var" "accum" "accum_update" "grad"
    (coeff mem "rho" 0) (coeff mem "epsilon" 0) (coeff mem "lr" 0) n
    (pointwise_where (handled done) (adadelta_table adadelta_update_kernel mem) mem) =
  pointwise_where (handled (done ++ [n]))
    (adadelta_table adadelta_update_kernel mem) mem.
Proof.
  intros [Hv Hvn]%has_array_flat [Ha Han]%has_array_flat [Hu Hun]%has_array_flat
         Hn Hdone.
  unfold ApplyAdadeltaKernel_body.
  read_threads. write_thread. read_threads. write_thread.
  read_threads. write_thread. thread_done.
Qed.

Lemma RMSProp_thread L mem done n :
  has_array mem "var" L → has_array mem "ms" L → has_array mem "mom" L →
  n < L → n ∉ done →
  ApplyRMSPropKernel_body "var" "ms" "mom" "grad"
    (coeff mem "rho" 0) (coeff mem "epsilon" 0) (coeff mem "lr" 0)
    (coeff mem "momentum" 0) n
    (pointwise_where (handled done) (rmsprop_table rmsprop_mom_kernel mem) mem) =
  pointwise_where (handled (done ++ [n])) (rmsprop_table rmsprop_mom_kernel mem) mem.
Proof.
  intros [Hv Hvn]%has_array_flat [Hs Hsn]%has_array_flat [Hm Hmn]%has_array_flat
         Hn Hdone.
  unfold ApplyRMSPropKernel_body.
  read_threads. write_thread. read_threads. write_thread.
  read_threads. write_thread. thread_done.
Qed.

Lemma CenteredRMSProp_thread L mem done n :
  has_array mem "var" L → has_array mem "mg" L →
  has_array mem "ms" L → has_array mem "mom" L →
  n < L → n ∉ done →
  ApplyCenteredRMSPropKernel_body "var" "mg" "ms" "mom" "grad"
    (coeff mem "rho" 0) (coeff mem "epsilon" 0) (coeff mem "lr" 0)
    (coeff mem "momentum" 0) n
    (pointwise_where (handled done) (centered_table centered_mom_kernel mem) mem) =
  pointwise_where (handled (done ++ [n])) (centered_table centered_mom_kernel mem) mem.
Proof.
  intros [Hv Hvn]%has_array_flat [Hg Hgn]%has_array_flat
         [Hs Hsn]%has_array_flat [Hm Hmn]%has_array_flat Hn Hdone.
  unfold ApplyCenteredRMSPropKernel_body.
  read_threads. write_thread. read_threads. write_thread.
  read_threads. write_thread. read_threads. write_thread. thread_done.
Qed.

End threads_facts.

Section schedules.
Context {T : Type} `{RealScalar T} `{Exp T} `{Impl T}.
Implicit Types (mem : Mem T).

(** The kernel of a family is its loop body run for [0 .. n-1] in turn. *)
Lemma kernel_of_threads (f : family) (n : nat) body kernel mem :
  body_of f mem = Some body → kernel_of f = Some kernel →
  kernel {| virtual_thread_count := n |} mem = kernel_threads (seq 0 n) body mem.
Proof.
  intros Hbody Hkernel.
  destruct f; try discriminate Hbody;
    apply (inj Some) in Hbody; apply (inj Some) in Hkernel;
    subst body kernel; reflexivity.
Qed.

(** After the threads of [order], each once and each inside the arrays,
    exactly the elements of [order] hold their new values. *)
Lemma kernel_threads_result (f : family) (L : nat) (order : list nat) body mem :
  body_of f mem = Some body → well_formed f L mem →
  NoDup order → Forall (fun n => n < L) order →
  kernel_threads order body mem =
  pointwise_where (handled order) (kernel_table f mem) mem.
Proof.
  intros Hbody Hwf Hnd Hlt.
  apply kernel_threads_inv; [|done].
  intros done n Hdone Hn.
  assert (n < L) as HnL by (rewrite Forall_forall in Hlt; auto).
  unfold well_formed in Hwf.
  destruct f; try discriminate Hbody; apply (inj Some) in Hbody; subst body;
    cbn [written kernel_table] in *; rewrite !Forall_cons in Hwf.
  - destruct Hwf as (Hv & Ha & _). by apply (Adagrad_thread L).
  - destruct Hwf as (Hv & Ha & _). by apply (AdagradV2_thread L).
  - destruct Hwf as (Hv & Ha & Hu & _). by apply (Adadelta_thread L).
  - destruct Hwf as (Hv & Hs & Hm & _). by apply (RMSProp_thread L).
  - destruct Hwf as (Hv & Hg & Hs & Hm & _). by apply (CenteredRMSProp_thread L).
Qed.

(** X17. The kernels have no race between elements: whatever the order in
    which the threads run the loop body for the indices [0 .. N-1], once
    each, the memory at the end is that of the loop run in index order. *)
Theorem kernel_schedule_independent (f : family) (N : nat) (order : list nat)
    (body : nat → Mem T → Mem T) (kernel : GpuLaunchConfig → Mem T → Mem T) mem :
  body_of f mem = Some body → kernel_of f = Some kernel →
  well_formed f N mem → order ≡ₚ seq 0 N →
  kernel_threads order body mem = kernel {| virtual_thread_count := N |} mem.
Proof.
  intros Hbody Hkernel Hwf Hperm.
  rewrite (kernel_of_threads f N body kernel mem Hbody Hkernel).
  rewrite (kernel_threads_result f N order body mem Hbody Hwf).
  - rewrite (kernel_threads_result f N (seq 0 N) body mem Hbody Hwf).
    + apply pointwise_where_ext. intros k i _. unfold handled.
      apply bool_decide_ext. by rewrite Hperm.
    + apply NoDup_seq.
    + apply Forall_forall. intros i Hi%elem_of_seq. lia.
  - rewrite Hperm. apply NoDup_seq.
  - rewrite Hperm. apply Forall_forall. intros i Hi%elem_of_seq. lia.
Qed.

(** X18. A kernel launched with [virtual_thread_count = n], no more than
    the arrays hold, leaves every element at an index [i >= n] of every
    array as it was. *)
Theorem kernel_within_thread_count (f : family) (n L : nat)
    (kernel : GpuLaunchConfig → Mem T → Mem T) mem (k : string) (i : nat) :
  kernel_of f = Some kernel → well_formed f L mem → n ≤ L → n ≤ i →
  coeff (kernel {| virtual_thread_count := n |} mem) k i = coeff mem k i.
Proof.
  intros Hkernel Hwf HnL Hi.
  assert (∃ body, body_of f mem = Some body) as [body Hbody]
    by (destruct f; try discriminate Hkernel; eexists; reflexivity).
  rewrite (kernel_of_threads f n body kernel mem Hbody Hkernel).
  rewrite (kernel_threads_result f L (seq 0 n) body mem Hbody Hwf).
  - apply coeff_pointwise_where_old. right. unfold handled.
    apply bool_decide_eq_false_2. intros Hin%elem_of_seq. lia.
  - apply NoDup_seq.
  - apply Forall_forall. intros j Hj%elem_of_seq. lia.
Qed.

(** The arrays the kernel of a family changes are among those the family
    may write. *)
Lemma kernel_table_written (f : family) mem (k : string) g :
  kernel_table f mem k = Some g → k ∈ written f.
Proof.
  destruct f; cbn [kernel_table written];
    cbv beta delta [adagrad_table adagradv2_table adadelta_table rmsprop_table
                    centered_table];
    repeat case_decide; subst; intros Hg; try discriminate Hg; set_solver.
Qed.

(** X20. On ROCm the five functors with a kernel pass the element count
    through an [int32]: with [n] the low 32 bits of [N] as a signed
    number, never more than [N], the call aborts when [n <= 0] (so for
    [N = 0] and for [N = 2^31]) and otherwise changes the first [n]
    elements only, those at an index [i >= n] staying as they were (for
    [N = 2^32 + j] these are all but [j] elements). *)
Theorem rocm_count_narrowed (f : family)
    (kernel : GpuLaunchConfig → Mem T → Mem T) (N : nat) mem :
  kernel_of f = Some kernel → well_formed f N mem → has_array mem "grad" N →
  let n := int32 (Z.of_nat N) in
  (n ≤ Z.of_nat N)%Z ∧
  ((n ≤ 0)%Z → call ROCm f mem = Fatal) ∧
  ((0 < n)%Z →
   ∃ mem',
     call ROCm f mem = Done mem' ∧
     ∀ (k : string) (i : nat),
       (Z.to_nat n ≤ i → coeff mem' k i = coeff mem k i) ∧
       (∀ g, kernel_table f mem k = Some g → i < Z.to_nat n →
             coeff mem' k i = g i)) ∧
  (∀ j : Z, (0 ≤ j < 2 ^ 31)%Z → int32 (2 ^ 32 + j) = j) ∧
  int32 (2 ^ 31) = (- 2 ^ 31)%Z.
Proof.
  intros Hkernel Hwf Hg n.
  assert (n ≤ Z.of_nat N)%Z as HnN by (subst n; apply int32_le; lia).
  assert (call ROCm f mem = launch n kernel mem) as Hcall.
  { rewrite (call_ROCm_kernel f kernel) by done.
    apply has_array_flat in Hg as [_ Hg]. unfold dimension. by rewrite Hg. }
  split; [exact HnN|]. split; [|split; [|split]].
  - intros Hn. rewrite Hcall. unfold launch, GetGpuLaunchConfig.
    destruct (Z.ltb_spec 0 n); [lia|done].
  - intros Hn. eexists. split.
    { rewrite Hcall. unfold launch, GetGpuLaunchConfig.
      destruct (Z.ltb_spec 0 n); [reflexivity|lia]. }
    assert (∃ body, body_of f mem = Some body) as [body Hbody]
      by (destruct f; try discriminate Hkernel; eexists; reflexivity).
    rewrite (kernel_of_threads f (Z.to_nat n) body kernel mem Hbody Hkernel).
    rewrite (kernel_threads_result f N (seq 0 (Z.to_nat n)) body mem Hbody Hwf).
    2:{ apply NoDup_seq. }
    2:{ apply Forall_forall. intros j Hj%elem_of_seq. lia. }
    intros k i. split.
    + intros Hi. apply coeff_pointwise_where_old. right. unfold handled.
      apply bool_decide_eq_false_2. intros Hin%elem_of_seq. lia.
    + intros g Hk Hi. apply (coeff_pointwise_where_new _ _ _ _ g); [done| |].
      * unfold handled. apply bool_decide_eq_true_2, elem_of_seq. lia.
      * apply kernel_table_written in Hk.
        unfold well_formed in Hwf. rewrite Forall_forall in Hwf.
        apply Hwf, has_array_flat in Hk as [_ Hk]. unfold dimension. lia.
  - apply int32_wraps.
  - reflexivity.
Qed.

End schedules.

Lemma kernel_schedule_independent_witness :
  body_of RMSProp rmsprop_three =
    Some (ApplyRMSPropKernel_body "var" "ms" "mom" "grad"
            (coeff rmsprop_three "rho" 0) (coeff rmsprop_three "epsilon" 0)
            (coeff rmsprop_three "lr" 0) (coeff rmsprop_three "momentum" 0)) ∧
  kernel_of RMSProp =
    Some (fun config =>
      ApplyRMSPropKernel config "var" "ms" "mom"
        "lr" "rho" "momentum" "epsilon" "grad") ∧
  well_formed RMSProp 3 rmsprop_three ∧
  [2; 0; 1] ≡ₚ seq 0 3 ∧
  kernel_threads [2; 0; 1]
    (ApplyRMSPropKernel_body "var" "ms" "mom" "grad"
       (coeff rmsprop_three "rho" 0) (coeff rmsprop_three "epsilon" 0)
       (coeff rmsprop_three "lr" 0) (coeff rmsprop_three "momentum" 0))
    rmsprop_three =
  ApplyRMSPropKernel {| virtual_thread_count := 3 |} "var" "ms" "mom"
    "lr" "rho" "momentum" "epsilon" "grad" rmsprop_three.
Proof.
  assert (well_formed RMSProp 3 rmsprop_three) as Hwf
    by (repeat apply Forall_cons_2; [| | |apply Forall_nil_2];
        eexists; split; reflexivity).
  assert ([2; 0; 1] ≡ₚ seq 0 3) as Hperm.
  { etrans; [apply Permutation_swap|]. apply Permutation_skip, Permutation_swap. }
  split; [reflexivity|]. split; [reflexivity|].
  split; [exact Hwf|]. split; [exact Hperm|].
  exact (kernel_schedule_independent RMSProp 3 [2; 0; 1] _ _ rmsprop_three
           eq_refl eq_refl Hwf Hperm).
Defined.

Lemma kernel_within_thread_count_witness :
  kernel_of RMSProp =
    Some (fun config =>
      ApplyRMSPropKernel config "var" "ms" "mom"
        "lr" "rho" "momentum" "epsilon" "grad") ∧
  well_formed RMSProp 3 rmsprop_three ∧ 2 ≤ 3 ∧ 2 ≤ 2 ∧
  coeff (ApplyRMSPropKernel {| virtual_thread_count := 2 |} "var" "ms" "mom"
           "lr" "rho" "momentum" "epsilon" "grad" rmsprop_three) "var" 2 =
  coeff rmsprop_three "var" 2.
Proof.
  assert (well_formed RMSProp 3 rmsprop_three) as Hwf
    by (repeat apply Forall_cons_2; [| | |apply Forall_nil_2];
        eexists; split; reflexivity).
  assert (2 ≤ 3) as H23 by lia. assert (2 ≤ 2) as H22 by lia.
  split; [reflexivity|]. split; [exact Hwf|]. split; [exact H23|].
  split; [exact H22|].
  exact (kernel_within_thread_count RMSProp 2 3 _ rmsprop_three "var" 2
           eq_refl Hwf H23 H22).
Defined.

(** The theorem on three elements, where the count is not changed, and on
    the empty arrays, where the call aborts. *)
Lemma rocm_count_narrowed_witness :
  (0 < int32 (Z.of_nat 3))%Z ∧ (int32 (Z.of_nat 0) ≤ 0)%Z ∧
  (∃ mem',
     call ROCm RMSProp rmsprop_three = Done mem' ∧
     ∀ (k : string) (i : nat),
       (Z.to_nat (int32 (Z.of_nat 3)) ≤ i →
        coeff mem' k i = coeff rmsprop_three k i) ∧
       (∀ g, kernel_table RMSProp rmsprop_three k = Some g →
             i < Z.to_nat (int32 (Z.of_nat 3)) → coeff mem' k i = g i)) ∧
  call ROCm (Adagrad true) empty_adagrad = Fatal.
Proof.
  assert (well_formed RMSProp 3 rmsprop_three) as Hwf.
  { repeat (apply Forall_cons_2; [eexists; split; reflexivity|]). apply Forall_nil_2. }
  assert (has_array rmsprop_three "grad" 3) as Hg by (eexists; split; reflexivity).
  assert (well_formed (Adagrad true) 0 empty_adagrad) as Hwf0.
  { repeat (apply Forall_cons_2; [eexists; split; reflexivity|]). apply Forall_nil_2. }
  assert (has_array empty_adagrad "grad" 0) as Hg0 by (eexists; split; reflexivity).
  assert (0 < int32 (Z.of_nat 3))%Z as H3 by reflexivity.
  assert (int32 (Z.of_nat 0) ≤ 0)%Z as H0 by (vm_compute; discriminate).
  split; [exact H3|]. split; [exact H0|]. split.
  - exact (proj1 (proj2 (proj2
             (rocm_count_narrowed RMSProp _ 3 rmsprop_three eq_refl Hwf Hg))) H3).
  - exact (proj1 (proj2
             (rocm_count_narrowed (Adagrad true) _ 0 empty_adagrad eq_refl Hwf0 Hg0))
             H0).
Defined.
